(** * ymldiff: the canonicalizer, the tree differ, the record matcher and the
    renderer of [main.go], embedded and verified.

    Go values of type [interface{}] that the YAML decoder hands to the program
    are embedded as the inductive type [Value]; Go maps are stdpp's [gmap],
    Go slices are lists. A Go panic is the result [None].

    Scope of the embedding: scalars are [nil], [bool], [int], [float64] and
    [string]; the keys of a map are [nil], [bool], [int] and [string];
    timestamps are left out. A [float64] is its IEEE 754 datum: the program
    compares floats ([reflect.DeepEqual], Go's [==]: NaN is not equal to
    itself, the two zeros are equal) and prints them ([%v], a function of
    the library, [FormatFloat] below), and does nothing else with them.
    Where Go ranges over a map the iteration order is unspecified; the
    embedding ranges in the order of [map_to_list], and statements about the
    produced changes are made up to permutation where that order shows. *)

From Stdlib Require Import ZArith.
From Stdlib Require Import Ascii DecimalString SpecFloat.
From stdpp Require Import gmap strings list fin_maps option sorting.

#[local] Set Warnings "-register-all".
#[local] Open Scope string_scope.
#[local] Open Scope list_scope.
#[local] Open Scope stdpp_scope.

(** ** Values *)

(** Keys of a [map[interface{}]interface{}]: the hashable scalars, floats
    apart (a map with a float for a key is not embedded). *)
Inductive Key :=
  | KNil
  | KBool (b : bool)
  | KInt (n : Z)
  | KStr (s : string).

#[global] Instance Key_eq_dec : EqDecision Key.
Proof. solve_decision. Defined.

Definition Key_encode (k : Key) : unit + bool + Z + string :=
  match k with
  | KNil => inl (inl (inl tt))
  | KBool b => inl (inl (inr b))
  | KInt n => inl (inr n)
  | KStr s => inr s
  end.

Definition Key_decode (x : unit + bool + Z + string) : Key :=
  match x with
  | inl (inl (inl _)) => KNil
  | inl (inl (inr b)) => KBool b
  | inl (inr n) => KInt n
  | inr s => KStr s
  end.

#[global] Instance Key_countable : Countable Key.
Proof. apply (inj_countable' Key_encode Key_decode). by intros []. Defined.

(** A [float64]: the binary64 data of IEEE 754, in the Standard Library's
    specification of floats. *)
Definition float64 : Type := spec_float.

#[global] Instance float64_eq_dec : EqDecision float64.
Proof. unfold float64. solve_decision. Defined.

(** A decoded YAML document: [interface{}]. [VNil] is the nil interface. *)
#[local] Unset Elimination Schemes.
Inductive Value :=
  | VNil
  | VBool (b : bool)
  | VInt (n : Z)
  | VFloat (f : float64)
  | VStr (s : string)
  | VMap (m : gmap Key Value)
  | VSlice (l : list Value).
#[local] Set Elimination Schemes.

Definition KeyVal (k : Key) : Value :=
  match k with
  | KNil => VNil
  | KBool b => VBool b
  | KInt n => VInt n
  | KStr s => VStr s
  end.

(** Nesting depth, the measure of the induction principle below. *)
Fixpoint depth (v : Value) : nat :=
  match v with
  | VMap m => S (map_fold (λ _ x acc, depth x `max` acc) 0 m)
  | VSlice l => S (foldr (λ x acc, depth x `max` acc) 0 l)
  | _ => 0
  end.

(** Equality of the embedded values is decidable. *)
#[global] Instance Value_eq_dec : EqDecision Value.
Proof.
  refine (fix go (v w : Value) : Decision (v = w) :=
    let _ : EqDecision Value := @go in
    match v, w with
    | VNil, VNil => left _
    | VBool a, VBool b => cast_if (decide (a = b))
    | VInt a, VInt b => cast_if (decide (a = b))
    | VFloat a, VFloat b => cast_if (decide (a = b))
    | VStr a, VStr b => cast_if (decide (a = b))
    | VMap a, VMap b => cast_if (decide (a = b))
    | VSlice a, VSlice b => cast_if (decide (a = b))
    | _, _ => right _
    end); abstract congruence.
Defined.

#[global] Instance Value_inhabited : Inhabited Value := populate VNil.

(** [reflect.DeepEqual] of two values held in different objects, as the
    documents of two parsed files are (on one and the same map or slice
    object it answers true without looking inside). Values of different
    dynamic types are not deeply equal; scalars are compared by Go's [==],
    which on floats is the IEEE comparison: NaN is not equal to NaN, and
    the positive and the negative zero are equal. Two maps are deeply equal
    when they have the same length and every key of the first is a key of
    the second with a deeply equal value; two slices, when they have the
    same length and deeply equal elements. *)
Fixpoint DeepEqual (v w : Value) {struct v} : bool :=
  match v, w with
  | VNil, VNil => true
  | VBool a, VBool b => bool_decide (a = b)
  | VInt a, VInt b => bool_decide (a = b)
  | VFloat a, VFloat b => SFeqb a b
  | VStr a, VStr b => bool_decide (a = b)
  | VMap m1, VMap m2 =>
      Nat.eqb (size m1) (size m2)
      && map_fold (λ key x acc,
                     match m2 !! key with
                     | Some y => DeepEqual x y
                     | None => false
                     end && acc) true m1
  | VSlice l1, VSlice l2 =>
      (fix elements (l1 l2 : list Value) : bool :=
         match l1, l2 with
         | [], [] => true
         | x :: rest1, y :: rest2 => DeepEqual x y && elements rest1 rest2
         | _, _ => false
         end) l1 l2
  | _, _ => false
  end.
Arguments DeepEqual : simpl never.

(** [reflect.TypeOf]: the dynamic type, [None] for the nil interface. *)
Inductive GoType := TBool | TInt | TFloat64 | TString | TMap | TSlice.

#[global] Instance GoType_eq_dec : EqDecision GoType.
Proof. solve_decision. Defined.

Definition TypeOf (v : Value) : option GoType :=
  match v with
  | VNil => None
  | VBool _ => Some TBool
  | VInt _ => Some TInt
  | VFloat _ => Some TFloat64
  | VStr _ => Some TString
  | VMap _ => Some TMap
  | VSlice _ => Some TSlice
  end.

(** ** Changes (main.go 19-34) *)

Inductive ChangeType := Addition | Deletion | Modification.

#[global] Instance ChangeType_eq_dec : EqDecision ChangeType.
Proof. solve_decision. Defined.

(** The field [Type] of the Go struct is [CType] here. An absent old or new
    value is Go's nil, [VNil]. *)
Record Change := mkChange {
  CType : ChangeType;
  Path : string;
  OldValue : Value;
  NewValue : Value;
}.

#[global] Instance Change_eq_dec : EqDecision Change.
Proof. solve_decision. Defined.

(** ** Library functions the program calls *)

Definition nl : string := String.String (ascii_of_nat 10) String.EmptyString.

(** [strconv.Itoa], and [%v] of an [int]. *)
Definition Itoa (n : Z) : string := NilZero.string_of_int (Z.to_int n).

(** [strings.Join]. *)
Fixpoint Join (elems : list string) (sep : string) : string :=
  match elems with
  | [] => ""
  | [s] => s
  | s :: rest => s +:+ sep +:+ Join rest sep
  end.

(** [sort.Slice]. For slices of at most twelve elements Go's pdqsort runs
    exactly this insertion sort: element [i] is swapped leftwards while it is
    less than its left neighbour. The sorted prefix is kept reversed, so that
    its last element is at the head. Longer slices are sorted by pdqsort
    proper, which also yields a sorted permutation and also returns an
    already sorted slice unchanged; only the order among elements that
    compare equal can differ. *)
Section sortSlice.
Context {A : Type} (less : A → A → bool).

Fixpoint sinkLeft (x : A) (revPrefix : list A) : list A :=
  match revPrefix with
  | [] => [x]
  | y :: rest => if less x y then y :: sinkLeft x rest else x :: revPrefix
  end.

Definition sortSlice (data : list A) : list A :=
  reverse (foldl (λ revPrefix x, sinkLeft x revPrefix) [] data).
End sortSlice.

(** [fmt.Sprintf("%v", k)] for a scalar. *)
Definition SprintKey (k : Key) : string :=
  match k with
  | KNil => "<nil>"
  | KBool b => if b then "true" else "false"
  | KInt n => Itoa n
  | KStr s => s
  end.

(** The order in which [fmt] prints the keys of a map (package
    [internal/fmtsort]): nil first, then by dynamic type, then by value.
    Between keys of different dynamic types Go compares the addresses of the
    type descriptors; the embedding fixes bool, int, string. *)
Definition keyLess (a b : Key) : bool :=
  match a, b with
  | KNil, KNil => false
  | KNil, _ => true
  | _, KNil => false
  | KBool x, KBool y => negb x && y
  | KBool _, _ => true
  | _, KBool _ => false
  | KInt x, KInt y => (x <? y)%Z
  | KInt _, _ => true
  | _, KInt _ => false
  | KStr x, KStr y => String.ltb x y
  end.

(** The [%v] text of the floats whose text needs no digits computed (the
    zeros, the infinities and NaN), as [strconv] gives it. It stands for the
    library's function where the program is evaluated on concrete
    documents, which hold no other floats. *)
Definition formatSpecialFloat (f : float64) : string :=
  match f with
  | S754_zero false => "0"
  | S754_zero true => "-0"
  | S754_infinity false => "+Inf"
  | S754_infinity true => "-Inf"
  | S754_nan => "NaN"
  | S754_finite _ _ _ => "float64"
  end.

Section ymldiff.
(** [fmt.Sprintf("%v", f)] for a [float64], of the library: [strconv]'s
    shortest decimal text that reads back as [f]. Everything below holds
    for any such function. *)
Variable FormatFloat : float64 → string.

(** [fmt.Sprintf("%v", v)]. *)
Fixpoint Sprint (v : Value) : string :=
  match v with
  | VNil => "<nil>"
  | VBool b => if b then "true" else "false"
  | VInt n => Itoa n
  | VFloat f => FormatFloat f
  | VStr s => s
  | VMap m =>
      let entries := sortSlice (λ a b, keyLess a.1 b.1) (map_to_list (Sprint <$> m)) in
      "map[" +:+ Join ((λ e, SprintKey e.1 +:+ ":" +:+ e.2) <$> entries) " " +:+ "]"
  | VSlice l => "[" +:+ Join (Sprint <$> l) " " +:+ "]"
  end.

(** ** isSliceOfDictsWithIds (main.go 37-59) *)

(** [_, has := m[k]]. *)
Definition has (m : gmap Key Value) (k : string) : bool :=
  bool_decide (is_Some (m !! KStr k)).

(** The [for _, item := range slice] loop. [reflect.TypeOf(item)] is nil for
    a nil item, and calling [Kind] on it panics. *)
Fixpoint isSliceOfDictsWithIds_loop (slice : list Value) : option bool :=
  match slice with
  | [] => Some false
  | item :: rest =>
      match item with
      | VNil => None
      | VMap m =>
          if has m "name" then Some true
          else if has m "key" then Some true
          else if has m "id" then Some true
          else isSliceOfDictsWithIds_loop rest
      | _ => Some false
      end
  end.

Definition isSliceOfDictsWithIds (slice : list Value) : option bool :=
  if Nat.eqb (length slice) 0 then Some false else isSliceOfDictsWithIds_loop slice.

(** ** normalizeValue (main.go 389-434) *)

(** All entries of a map of results, or the panic of one of them. *)
Definition mapSequence {A} (m : gmap Key (option A)) : option (gmap Key A) :=
  if decide (map_Forall (λ _ o, is_Some o) m) then Some (omap id m) else None.

(** The [less] of the slice case: by the [%v] text of the elements. *)
Definition lessByText (a b : Value) : bool := String.ltb (Sprint a) (Sprint b).

(** The map case builds a fresh map holding, under every key of the input,
    the normalized value; the order in which the sorted keys are inserted
    leaves no trace in a Go map. The slice case normalizes the elements in
    order, then sorts them by their [%v] text unless [isSliceOfDictsWithIds]
    says they are records. *)
Fixpoint normalizeValue (v : Value) : option Value :=
  match v with
  | VNil => Some VNil
  | VMap m => VMap <$> mapSequence (normalizeValue <$> m)
  | VSlice l =>
      elements ← mapM normalizeValue l;
      records ← isSliceOfDictsWithIds elements;
      if records : bool then Some (VSlice elements)
      else Some (VSlice (sortSlice lessByText elements))
  | _ => Some v
  end.

(** ** diffSliceOfDicts (main.go 62-123) *)

(** The identifier under which one item is entered in the lookup map: the
    [if name ... else if key ... else if id] chain of both grouping loops.
    An item that is not a map, or has none of the three keys, is skipped. *)
Definition identifier (item : Value) : option string :=
  match item with
  | VMap m =>
      match m !! KStr "name" with
      | Some name => Some (Sprint name)
      | None =>
          match m !! KStr "key" with
          | Some key => Some (Sprint key)
          | None =>
              match m !! KStr "id" with
              | Some id => Some (Sprint id)
              | None => None
              end
          end
      end
  | _ => None
  end.

(** One grouping loop: [oldMap[fmt.Sprintf("%v", name)] = item], in slice
    order. *)
Definition groupByIdentifier (slice : list Value) : gmap string Value :=
  foldl (λ acc item,
           match identifier item with
           | Some key => <[key := item]> acc
           | None => acc
           end) ∅ slice.

Section diffSliceOfDicts.
(** The recursive call to [diffValues]. *)
Variable rec : Value → Value → string → option (list Change).

Definition diffSliceOfDictsWith (oldSlice newSlice : list Value) (path : string)
    : option (list Change) :=
  let oldMap := groupByIdentifier oldSlice in
  let newMap := groupByIdentifier newSlice in
  found ← mapM (λ '(key, oldItem),
                  match newMap !! key with
                  | Some newItem => rec oldItem newItem (path +:+ "[" +:+ key +:+ "]")
                  | None => Some [mkChange Deletion (path +:+ "[" +:+ key +:+ "]") oldItem VNil]
                  end) (map_to_list oldMap);
  Some (concat found ++
        omap (λ '(key, newItem),
                match oldMap !! key with
                | Some _ => None
                | None => Some (mkChange Addition (path +:+ "[" +:+ key +:+ "]") VNil newItem)
                end) (map_to_list newMap)).

End diffSliceOfDicts.

(** ** diffValues (main.go 256-386) *)

(** [isSliceOfDictsWithIds(oldSlice) && isSliceOfDictsWithIds(newSlice)]:
    the right operand is evaluated only when the left one is true. *)
Definition bothSlicesOfDictsWithIds (oldSlice newSlice : list Value) : option bool :=
  isOld ← isSliceOfDictsWithIds oldSlice;
  if isOld : bool then isSliceOfDictsWithIds newSlice else Some false.

Section diffValues.
(** The recursive calls to [diffValues]: [rec] from the body of
    [diffValues] itself, [recItem] from [diffSliceOfDicts]. *)
Variables rec recItem : Value → Value → string → option (list Change).

(** The map case (main.go 298-330): the keys of the old map, then the keys
    only the new map has. *)
Definition diffMaps (oldMap newMap : gmap Key Value) (path : string)
    : option (list Change) :=
  found ← map_fold (λ key oldValue acc,
             subChanges ←
               match newMap !! key with
               | None => Some [mkChange Deletion (path +:+ "." +:+ SprintKey key) oldValue VNil]
               | Some newValue => rec oldValue newValue (path +:+ "." +:+ SprintKey key)
               end;
             rest ← acc;
             Some (subChanges ++ rest)) (Some []) oldMap;
  Some (found ++
        omap (λ '(key, newValue),
                match oldMap !! key with
                | Some _ => None
                | None => Some (mkChange Addition (path +:+ "." +:+ SprintKey key) VNil newValue)
                end) (map_to_list newMap)).

(** The positional comparison of two slices (main.go 340-370), from index
    [i] on: the common indices recurse, the surplus of the longer slice is
    reported element by element. *)
Fixpoint diffPositional (oldSlice newSlice : list Value) (path : string) (i : nat)
    : option (list Change) :=
  match oldSlice, newSlice with
  | o :: oldRest, n :: newRest =>
      subChanges ← rec o n (path +:+ "[" +:+ Itoa (Z.of_nat i) +:+ "]");
      rest ← diffPositional oldRest newRest path (S i);
      Some (subChanges ++ rest)
  | _ :: _, [] =>
      Some (imap (λ j o, mkChange Deletion (path +:+ "[" +:+ Itoa (Z.of_nat (i + j)) +:+ "]") o VNil)
                 oldSlice)
  | [], _ =>
      Some (imap (λ j n, mkChange Addition (path +:+ "[" +:+ Itoa (Z.of_nat (i + j)) +:+ "]") VNil n)
                 newSlice)
  end.

(** The body of [diffValues]. After the nil checks both values are present
    and of one type; the [switch] on the kind of that type asserts the map
    or slice type of both. *)
Definition diffValuesBody (oldVal newVal : Value) (path : string)
    : option (list Change) :=
  if DeepEqual oldVal newVal then Some []
  else if bool_decide (TypeOf oldVal ≠ TypeOf newVal) && bool_decide (oldVal ≠ VNil)
          && bool_decide (newVal ≠ VNil)
  then Some [mkChange Modification path oldVal newVal]
  else if bool_decide (oldVal = VNil) && bool_decide (newVal ≠ VNil)
  then Some [mkChange Addition path VNil newVal]
  else if bool_decide (oldVal ≠ VNil) && bool_decide (newVal = VNil)
  then Some [mkChange Deletion path oldVal VNil]
  else
    match oldVal, newVal with
    | VMap oldMap, VMap newMap => diffMaps oldMap newMap path
    | VSlice oldSlice, VSlice newSlice =>
        records ← bothSlicesOfDictsWithIds oldSlice newSlice;
        if records : bool
        then diffSliceOfDictsWith recItem oldSlice newSlice path
        else diffPositional oldSlice newSlice path 0
    | VNil, _ | VMap _, _ | VSlice _, _ => None
    | _, _ =>
        if negb (DeepEqual oldVal newVal)
        then Some [mkChange Modification path oldVal newVal]
        else Some []
    end.
End diffValues.

(** The recursive call on an item that [diffSliceOfDicts] takes out of its
    lookup map: the item is found again among the elements of the old slice,
    which makes the recursion structural. [diffValues_unfold] below shows
    that this is the call [diffValues oldItem]. *)
Definition recOn (table : list (Value * (Value → string → option (list Change))))
    (oldItem : Value) : Value → string → option (list Change) :=
  match find (λ e, bool_decide (e.1 = oldItem)) table with
  | Some e => e.2
  | None => λ _ _, None
  end.

Fixpoint diffValues (oldVal newVal : Value) (path : string) {struct oldVal}
    : option (list Change) :=
  diffValuesBody diffValues
    (match oldVal with
     | VSlice oldSlice => recOn ((λ item, (item, diffValues item)) <$> oldSlice)
     | _ => λ _ _ _, None
     end) oldVal newVal path.

Definition diffSliceOfDicts : list Value → list Value → string → option (list Change) :=
  diffSliceOfDictsWith diffValues.

(** ** The renderer (main.go 126-253) *)

(** [strings.Contains]. *)
Definition Contains (s substr : string) : bool :=
  bool_decide (is_Some (String.index 0 substr s)).

(** [strings.TrimSuffix]. *)
Fixpoint TrimSuffix (s suffix : string) : string :=
  if bool_decide (s = suffix) then ""
  else match s with
       | String.EmptyString => ""
       | String.String c rest => String.String c (TrimSuffix rest suffix)
       end.

(** [strings.Split] at a separator of one byte. *)
Fixpoint Split (s : string) (sep : ascii) : list string :=
  match s with
  | String.EmptyString => [""]
  | String.String c rest =>
      if bool_decide (c = sep) then "" :: Split rest sep
      else match Split rest sep with
           | [] => [String.String c ""]
           | line :: lines => String.String c line :: lines
           end
  end.

(** [strings.TrimSpace(line) != ""]: the line has a byte that is not white
    space. Only the ASCII white space is modelled. *)
Definition isBlank (line : string) : bool :=
  forallb (λ c, bool_decide (c ∈ [" "; "009"; "010"; "011"; "012"; "013"]%char))
          (String.list_ascii_of_string line).

(** The [less] of the renderer: by path. *)
Definition lessByPath (a b : Change) : bool := String.ltb (Path a) (Path b).

Section renderer.
(** What the libraries do: the three colours of package [color] ([Sprint]
    of the red, green and yellow objects, which depends on the switch
    [color.NoColor]), and the YAML encoder with an indentation of three
    ([None] when it reports an error). *)
Variables red green yellow : string → string.
Variable yamlEncode : Value → option string.

Definition formatValue (v : Value) : string :=
  match v with
  | VNil => "null"
  | VMap _ | VSlice _ =>
      match yamlEncode v with
      | None => Sprint v
      | Some buf => TrimSuffix buf nl
      end
  | _ => Sprint v
  end.

Definition prefixLinesComplex (s prefix : string) : string :=
  let lines := Split s (ascii_of_nat 10) in
  String.concat ""
    (imap (λ i line,
             if negb (Nat.eqb i 0) || negb (bool_decide (line = ""))
             then prefix +:+ (if negb (isBlank line) then "   " else "") +:+ line +:+ nl
             else "") lines).

Definition isStringValue (v : Value) : bool :=
  match v with VStr _ => true | _ => false end.

(** The type assertion [v.(string)], made only where [isStringValue]
    holds. *)
Definition stringOf (v : Value) : string :=
  match v with VStr s => s | _ => "" end.

Definition colorStringDiff (oldStr newStr : string) : string * string :=
  (red oldStr, green newStr).

(** The text of one change: the body of the [for _, change := range
    changes] loop. *)
Definition renderChange (change : Change) : string :=
  match CType change with
  | Addition =>
      let coloredPrefix := green "+ " in
      let formattedValue := formatValue (NewValue change) in
      coloredPrefix +:+ Path change +:+ ": " +:+
      (if Contains formattedValue nl
       then nl +:+ prefixLinesComplex formattedValue coloredPrefix
       else formattedValue +:+ nl)
  | Deletion =>
      let coloredPrefix := red "- " in
      let formattedValue := formatValue (OldValue change) in
      coloredPrefix +:+ Path change +:+ ": " +:+
      (if Contains formattedValue nl
       then nl +:+ prefixLinesComplex formattedValue coloredPrefix
       else formattedValue +:+ nl)
  | Modification =>
      let oldStr := formatValue (OldValue change) in
      let newStr := formatValue (NewValue change) in
      yellow "~ " +:+ Path change +:+ ": " +:+
      (if isStringValue (OldValue change) && isStringValue (NewValue change)
       then
         let '(oldStrColored, newStrColored) :=
           colorStringDiff (stringOf (OldValue change)) (stringOf (NewValue change)) in
         oldStrColored +:+ " → " +:+ newStrColored +:+ nl
       else oldStr +:+ " → " +:+ newStr +:+ nl)
  end.

(** [generateColoredDiff] gets the slice [changes] of the caller, which
    shares its elements with the caller's slice: [sort.Slice] reorders them
    in place. The result is the pair of the caller's slice after the call
    and the returned text. *)
Definition generateColoredDiff (changes : list Change) : list Change * string :=
  if Nat.eqb (length changes) 0 then (changes, "No changes found." +:+ nl)
  else
    let changes := sortSlice lessByPath changes in
    (changes, String.concat "" (renderChange <$> changes)).
End renderer.

(** ** extractComments (main.go 530-573) *)

(** The fields of a [yaml.Node] that [extractComments] reads. *)
Inductive Node :=
  | mkNode (HeadComment LineComment FootComment : string) (Content : list Node).

(** [strings.HasPrefix]. *)
Definition HasPrefix (s prefix : string) : bool := String.prefix prefix s.

Section extractComments.
(** [strings.TrimSpace], of the library. *)
Variable TrimSpace : string → string.

(** [if !strings.HasPrefix(line, "#") { line = "# " + line }]. *)
Definition markComment (line : string) : string :=
  if negb (HasPrefix line "#") then "# " +:+ line else line.

(** The lines of a head or foot comment. *)
Definition commentLines (comment : string) : list string :=
  if bool_decide (comment ≠ "") then
    omap (λ line,
            let line := TrimSpace line in
            if bool_decide (line ≠ "") then Some (markComment line) else None)
         (Split (TrimSpace comment) (ascii_of_nat 10))
  else [].

Fixpoint extractComments (node : Node) : list string :=
  match node with
  | mkNode HeadComment LineComment FootComment Content =>
      commentLines HeadComment
      ++ (if bool_decide (LineComment ≠ "") then [markComment (TrimSpace LineComment)] else [])
      ++ commentLines FootComment
      ++ concat (extractComments <$> Content)
  end.

End extractComments.

(** ** The comparison loop of main (main.go 627-684) *)

Record YAMLDocument := mkYAMLDocument {
  Data : Value;
  Comments : list string;
}.

Section main.
Variables red green yellow : string → string.
Variable yamlEncode : Value → option string.
(** What [blue.Println(s)] and [blue.Printf] (given the formatted text)
    write to the standard output. *)
Variables bluePrintln bluePrintf : string → string.
(** The global flags. *)
Variables disableComments noDocComment : bool.

(** One round of the loop: what it writes for the documents of index [i].
    [None] when [diffValues] panics. *)
Definition compareDocument (documents1 documents2 : list YAMLDocument) (totalDocs i : nat)
    : option string :=
  let doc1Data := from_option Data VNil (documents1 !! i) in
  let comments := from_option Comments [] (documents1 !! i) in
  let doc2Data := from_option Data VNil (documents2 !! i) in
  let comments :=
    match documents2 !! i with
    | Some doc2 => if Nat.ltb 0 (length (Comments doc2)) then Comments doc2 else comments
    | None => comments
    end in
  if bool_decide (doc1Data = VNil) && bool_decide (doc2Data = VNil) then Some ""
  else
    changes ← diffValues doc1Data doc2Data "";
    if Nat.eqb (length changes) 0 then Some ""
    else
      Some ((if noDocComment then bluePrintln "---"
             else bluePrintf ("--- # YAML Document: " +:+ Itoa (Z.of_nat (i + 1)) +:+ "/"
                              +:+ Itoa (Z.of_nat totalDocs) +:+ nl))
            +:+ (if negb disableComments then String.concat "" (bluePrintln <$> comments) else "")
            +:+ (generateColoredDiff red green yellow yamlEncode changes).2
            +:+ nl).

(** The loop over the document indices of the longer file: the text written
    by a run that does not panic. *)
Definition compareDocuments (documents1 documents2 : list YAMLDocument) : option string :=
  let maxDocs := length documents1 `max` length documents2 in
  written ← mapM (compareDocument documents1 documents2 maxDocs) (seq 0 maxDocs);
  Some (String.concat "" written).

End main.

(** * The notions of the statements *)

(** [x] may stand before [y] in a slice sorted by [less]. *)
Definition inOrder {A} (less : A → A → bool) (x y : A) : Prop := less y x = false.

(** The classification in the words of the specification: the sequence is not
    empty, all its elements are mappings, and one of them has one of the keys
    [name], [key], [id]. *)
Definition isMapping (v : Value) : bool :=
  match v with VMap _ => true | _ => false end.

Definition hasIdentifierKey (v : Value) : bool :=
  match v with
  | VMap m => has m "name" || has m "key" || has m "id"
  | _ => false
  end.

Definition identifiableRecordSequence (slice : list Value) : bool :=
  negb (Nat.eqb (length slice) 0) && forallb isMapping slice && existsb hasIdentifierKey slice.

(** The value holds no NaN. *)
Fixpoint NaNFree (v : Value) : bool :=
  match v with
  | VFloat f => negb (bool_decide (f = S754_nan))
  | VMap m => map_fold (λ _ x acc, NaNFree x && acc) true m
  | VSlice l => forallb NaNFree l
  | _ => true
  end.

(** The value holds no float zero. *)
Fixpoint zeroFree (v : Value) : bool :=
  match v with
  | VFloat f => match f with S754_zero _ => false | _ => true end
  | VMap m => map_fold (λ _ x acc, zeroFree x && acc) true m
  | VSlice l => forallb zeroFree l
  | _ => true
  end.

(** No sequence inside the value holds a Null element. *)
Fixpoint nilFreeSlices (v : Value) : bool :=
  match v with
  | VMap m => map_fold (λ _ x acc, nilFreeSlices x && acc) true m
  | VSlice l => forallb (λ x, negb (bool_decide (x = VNil)) && nilFreeSlices x) l
  | _ => true
  end.

(** The two loops of the positional comparison, index by index, counting
    from [i]: the recursion on the common indices, then the surplus of the
    longer slice. *)
Definition positionalChanges (rec : Value → Value → string → option (list Change))
    (oldSlice newSlice : list Value) (path : string) (i : nat) : option (list Change) :=
  common ← mapM (λ j, rec (oldSlice !!! j) (newSlice !!! j)
                        (path +:+ "[" +:+ Itoa (Z.of_nat (i + j)) +:+ "]"))
                (seq 0 (length oldSlice `min` length newSlice));
  Some (concat common
        ++ ((λ j, mkChange Deletion (path +:+ "[" +:+ Itoa (Z.of_nat (i + j)) +:+ "]")
                    (oldSlice !!! j) VNil)
              <$> seq (length newSlice) (length oldSlice - length newSlice))
        ++ ((λ j, mkChange Addition (path +:+ "[" +:+ Itoa (Z.of_nat (i + j)) +:+ "]")
                    VNil (newSlice !!! j))
              <$> seq (length oldSlice) (length newSlice - length oldSlice))).

(** What the record matcher reports for one identifier: a [Deletion] when
    only the old lookup map has it, an [Addition] when only the new one has
    it, the recursive diff of the two items when both have it. *)
Definition deletionOf (path : string) (entry : string * Value) : Change :=
  mkChange Deletion (path +:+ "[" +:+ entry.1 +:+ "]") entry.2 VNil.

Definition additionOf (path : string) (entry : string * Value) : Change :=
  mkChange Addition (path +:+ "[" +:+ entry.1 +:+ "]") VNil entry.2.

Definition diffOf (rec : Value → Value → string → option (list Change)) (path : string)
    (entry : string * (Value * Value)) : option (list Change) :=
  rec entry.2.1 entry.2.2 (path +:+ "[" +:+ entry.1 +:+ "]").

(** The [less] that sorts by a text. *)
Definition lessBy {A} (text : A → string) (a b : A) : bool := String.ltb (text a) (text b).

(** A mapping without any of the keys [name], [key], [id]. *)
Definition plainMapping (v : Value) : Prop :=
  isMapping v = true ∧ hasIdentifierKey v = false.

(** The shape of a change: an [Addition] has no old value, a [Deletion] no
    new value, a [Modification] two present values that are not deeply
    equal, and so, unless the old one holds a NaN, two different values. *)
Definition changeShape (c : Change) : Prop :=
  match CType c with
  | Addition => OldValue c = VNil
  | Deletion => NewValue c = VNil
  | Modification =>
      OldValue c ≠ VNil ∧ NewValue c ≠ VNil
      ∧ DeepEqual (OldValue c) (NewValue c) = false
      ∧ (NaNFree (OldValue c) = true → OldValue c ≠ NewValue c)
  end.

(** The path of the change is the given path, or leads on from it. *)
Definition pathUnder (path : string) (c : Change) : Prop :=
  ∃ suffix, Path c = path +:+ suffix.

(** All sequences inside the value are sequences that the test does not take
    for records. *)
Fixpoint plainSlices (v : Value) : bool :=
  match v with
  | VMap m => map_fold (λ _ x acc, plainSlices x && acc) true m
  | VSlice l => bool_decide (isSliceOfDictsWithIds l = Some false) && forallb plainSlices l
  | _ => true
  end.

(** The documents of the test scenarios. *)
Definition config (host : string) (port : Z) (enabled : bool) (ttl : Z) : Value :=
  VMap {[ KStr "config" :=
            VMap {[ KStr "database" := VMap {[ KStr "host" := VStr host; KStr "port" := VInt port ]};
                    KStr "cache" := VMap {[ KStr "enabled" := VBool enabled; KStr "ttl" := VInt ttl ]} ]} ]}.

Definition user (name : string) (age : Z) : Value :=
  VMap {[ KStr "name" := VStr name; KStr "age" := VInt age ]}.

(** * Properties *)

(** ** Induction on values *)

Lemma depth_map_lookup (m : gmap Key Value) k x :
  m !! k = Some x → depth x < depth (VMap m).
Proof.
  intros Hk. simpl. rewrite map_fold_foldr.
  apply elem_of_map_to_list in Hk.
  induction (map_to_list m) as [|[k' y] l IH]; [by apply elem_of_nil in Hk|].
  apply elem_of_cons in Hk as [[= <- <-]|Hk]; simpl in *; [lia|].
  specialize (IH Hk). lia.
Qed.

Lemma depth_slice_elem (l : list Value) x :
  x ∈ l → depth x < depth (VSlice l).
Proof.
  intros Hx. simpl.
  induction l as [|y l IH]; [by apply elem_of_nil in Hx|].
  apply elem_of_cons in Hx as [<-|Hx]; simpl in *; [lia|].
  specialize (IH Hx). lia.
Qed.

Lemma Value_ind (P : Value → Prop) :
  P VNil →
  (∀ b, P (VBool b)) →
  (∀ n, P (VInt n)) →
  (∀ f, P (VFloat f)) →
  (∀ s, P (VStr s)) →
  (∀ m, map_Forall (λ _, P) m → P (VMap m)) →
  (∀ l, Forall P l → P (VSlice l)) →
  ∀ v, P v.
Proof.
  intros HNil HBool HInt HFloat HStr HMap HSlice v.
  remember (depth v) as d eqn:Hd. revert v Hd.
  induction d as [d IH] using lt_wf_ind. intros [ | | | | |m|l] ->; auto.
  - apply HMap. intros k x Hk. eapply IH; [|done]. by eapply depth_map_lookup.
  - apply HSlice. apply Forall_forall. intros x Hx.
    eapply IH; [|done]. by apply depth_slice_elem.
Qed.

(** ** reflect.DeepEqual *)

Lemma DeepEqual_VMap (m1 m2 : gmap Key Value) :
  DeepEqual (VMap m1) (VMap m2) = true ↔
  size m1 = size m2
  ∧ map_Forall (λ key x, ∃ y, m2 !! key = Some y ∧ DeepEqual x y = true) m1.
Proof.
  change (DeepEqual (VMap m1) (VMap m2))
    with (Nat.eqb (size m1) (size m2)
          && map_fold (λ key x acc,
                         match m2 !! key with
                         | Some y => DeepEqual x y
                         | None => false
                         end && acc) true m1).
  rewrite andb_true_iff, Nat.eqb_eq, map_fold_foldr.
  apply and_iff_compat_l. rewrite map_Forall_to_list.
  induction (map_to_list m1) as [|[key x] entries IH]; [by split; [constructor|]|].
  rewrite Forall_cons, <- IH. cbn [foldr uncurry]. cbn beta. rewrite andb_true_iff.
  apply and_iff_compat_r. simpl. destruct (m2 !! key) as [y|].
  - split; [by exists y|]. by intros (? & [= <-] & ?).
  - split; [done|]. by intros (? & [=] & ?).
Qed.

Lemma DeepEqual_VSlice (l1 l2 : list Value) :
  DeepEqual (VSlice l1) (VSlice l2) = true ↔ Forall2 (λ x y, DeepEqual x y = true) l1 l2.
Proof.
  revert l2. induction l1 as [|x l1 IH]; intros [|y l2]; cbn.
  - by split; [constructor|].
  - split; [done|]. by intros ?%Forall2_nil_cons_inv.
  - split; [done|]. by intros ?%Forall2_cons_nil_inv.
  - rewrite Forall2_cons, <- IH.
    change (DeepEqual (VSlice (x :: l1)) (VSlice (y :: l2)))
      with (DeepEqual x y && DeepEqual (VSlice l1) (VSlice l2)).
    apply andb_true_iff.
Qed.

Lemma DeepEqual_TypeOf (v w : Value) : DeepEqual v w = true → TypeOf v = TypeOf w.
Proof. by destruct v, w. Qed.

Lemma DeepEqual_nil_l (v : Value) : DeepEqual VNil v = true ↔ v = VNil.
Proof. by destruct v. Qed.

Lemma DeepEqual_nil_r (v : Value) : DeepEqual v VNil = true ↔ v = VNil.
Proof. by destruct v. Qed.

Lemma DeepEqual_KeyVal (a b : Key) : DeepEqual (KeyVal a) (KeyVal b) = bool_decide (a = b).
Proof.
  destruct a as [ |x|x|x], b as [ |y|y|y]; try done;
    cbn; apply bool_decide_ext; split; congruence.
Qed.

(** Two deeply equal maps have the same keys. *)
Lemma DeepEqual_VMap_lookup (m1 m2 : gmap Key Value) (key : Key) :
  DeepEqual (VMap m1) (VMap m2) = true →
  match m1 !! key, m2 !! key with
  | Some x, Some y => DeepEqual x y = true
  | None, None => True
  | _, _ => False
  end.
Proof.
  intros [Hsize Hall]%DeepEqual_VMap.
  assert (dom m1 = dom m2) as Hdom.
  { apply set_subseteq_size_eq; [|by rewrite !size_dom, Hsize].
    intros k [x Hk]%elem_of_dom. destruct (Hall k x Hk) as (y & Hy & _).
    apply elem_of_dom. by eexists. }
  destruct (m1 !! key) as [x|] eqn:H1.
  - destruct (Hall key x H1) as (y & -> & Hxy). done.
  - apply not_elem_of_dom in H1. rewrite Hdom in H1. apply not_elem_of_dom in H1.
    by rewrite H1.
Qed.

Lemma DeepEqual_VMap_intro (m1 m2 : gmap Key Value) :
  (∀ key, match m1 !! key, m2 !! key with
          | Some x, Some y => DeepEqual x y = true
          | None, None => True
          | _, _ => False
          end) →
  DeepEqual (VMap m1) (VMap m2) = true.
Proof.
  intros Hall. apply DeepEqual_VMap. split.
  - rewrite <- !size_dom. f_equal. apply set_eq. intros key. rewrite !elem_of_dom.
    specialize (Hall key). by destruct (m1 !! key), (m2 !! key).
  - intros key x Hkey. specialize (Hall key). rewrite Hkey in Hall.
    destruct (m2 !! key) as [y|]; [by exists y|done].
Qed.

Lemma NaNFree_map (m : gmap Key Value) key x :
  NaNFree (VMap m) = true → m !! key = Some x → NaNFree x = true.
Proof.
  simpl. rewrite map_fold_foldr. intros Hall Hk%elem_of_map_to_list.
  induction (map_to_list m) as [|[k' y] l IH]; [by apply elem_of_nil in Hk|].
  simpl in Hall. apply andb_true_iff in Hall as [Hy Hall].
  apply elem_of_cons in Hk as [[= <- <-]|Hk]; auto.
Qed.

Lemma SFeqb_refl (f : float64) : f ≠ S754_nan → SFeqb f f = true.
Proof.
  destruct f as [[]|[]| |[] mant e]; try done; intros _; unfold SFeqb, SFcompare;
    rewrite Z.compare_refl, Pos.compare_cont_refl; done.
Qed.

(** The two zeros apart, floats that Go's [==] holds equal are the same
    float. *)
Lemma SFeqb_eq (a b : float64) :
  SFeqb a b = true → a = b ∨ ∃ s t, a = S754_zero s ∧ b = S754_zero t.
Proof.
  destruct a as [s|[]| |[] m1 e1], b as [t|[]| |[] m2 e2]; try done; try (by left);
    try (right; by eauto); unfold SFeqb, SFcompare;
    destruct (Z.compare e1 e2) eqn:He; try done; apply Z.compare_eq in He as ->;
    destruct (Pos.compare_cont Eq m1 m2) eqn:Hm; try done;
    apply Pos.compare_eq in Hm as ->; by left.
Qed.

Lemma zeroFree_map (m : gmap Key Value) key x :
  zeroFree (VMap m) = true → m !! key = Some x → zeroFree x = true.
Proof.
  simpl. rewrite map_fold_foldr. intros Hall Hk%elem_of_map_to_list.
  induction (map_to_list m) as [|[k' y] l IH]; [by apply elem_of_nil in Hk|].
  simpl in Hall. apply andb_true_iff in Hall as [Hy Hall].
  apply elem_of_cons in Hk as [[= <- <-]|Hk]; auto.
Qed.

(** On values without a float zero, what [reflect.DeepEqual] holds equal is
    equal. *)
Lemma DeepEqual_eq (v w : Value) : zeroFree v = true → DeepEqual v w = true → v = w.
Proof.
  revert w. induction v as [ |a|a|a|a|m IH|l IH] using Value_ind; intros w Hfree Heq.
  - by apply DeepEqual_nil_l in Heq.
  - destruct w; try done. by apply bool_decide_eq_true in Heq as ->.
  - destruct w; try done. by apply bool_decide_eq_true in Heq as ->.
  - destruct w as [ | | |b| | |]; try done.
    apply SFeqb_eq in Heq as [->|(s & t & -> & _)]; done.
  - destruct w; try done. by apply bool_decide_eq_true in Heq as ->.
  - destruct w as [ | | | | |m'|]; try done. f_equal. apply map_eq. intros key.
    pose proof (DeepEqual_VMap_lookup _ _ key Heq) as Hkey.
    destruct (m !! key) as [x|] eqn:Hx, (m' !! key) as [y|]; try done.
    f_equal. apply (IH key x Hx); [|done]. by eapply zeroFree_map.
  - destruct w as [ | | | | | |l']; try done. f_equal.
    apply DeepEqual_VSlice in Heq. simpl in Hfree.
    induction Heq as [|x y l l' Hxy _ IHl]; [done|].
    simpl in Hfree. apply andb_true_iff in Hfree as [Hx Hfree].
    apply Forall_cons in IH as [IHx IH]. f_equal; auto.
Qed.

(** On values without NaN, [reflect.DeepEqual] is reflexive. *)
Lemma DeepEqual_refl (v : Value) : NaNFree v = true → DeepEqual v v = true.
Proof.
  induction v as [ | | |f| |m IH|l IH] using Value_ind; intros Hfree;
    try done; try (by apply bool_decide_eq_true_2).
  - apply SFeqb_refl. intros ->. done.
  - apply DeepEqual_VMap_intro. intros key. destruct (m !! key) as [x|] eqn:Hkey; [|done].
    apply (IH key x Hkey). by eapply NaNFree_map.
  - apply DeepEqual_VSlice. simpl in Hfree.
    induction l as [|x l IHl]; [constructor|].
    simpl in Hfree. apply andb_true_iff in Hfree as [Hx Hfree].
    apply Forall_cons in IH as [IHx IH]. constructor; auto.
Qed.

Lemma Sprint_KeyVal (k : Key) : Sprint (KeyVal k) = SprintKey k.
Proof. by destruct k. Qed.

(** ** Lists of results *)

Lemma mapM_cons {A B} (f : A → option B) (x : A) (l : list A) :
  mapM f (x :: l) = y ← f x; k ← mapM f l; Some (y :: k).
Proof. done. Qed.

Lemma mapM_fmap_option {A B C} (f : B → option C) (g : A → B) (l : list A) :
  mapM f (g <$> l) = mapM (f ∘ g) l.
Proof. induction l as [|x l IH]; [done|]. by rewrite fmap_cons, !mapM_cons, IH. Qed.

(** ** sort.Slice *)

Lemma ltb_asym (s1 s2 : string) : String.ltb s1 s2 = true → String.ltb s2 s1 = false.
Proof.
  unfold String.ltb. rewrite (String.compare_antisym s2 s1).
  by destruct (String.compare s1 s2).
Qed.

Lemma ltb_false_le (s1 s2 : string) : String.ltb s2 s1 = false ↔ (s1 ≤ s2)%string.
Proof.
  unfold String.le, String.leb, String.ltb. rewrite (String.compare_antisym s1 s2).
  by destruct (String.compare s2 s1).
Qed.

Lemma Sorted_weaken {A} (R1 R2 : relation A) (l : list A) :
  (∀ x y, R1 x y → R2 x y) → Sorted R1 l → Sorted R2 l.
Proof.
  intros HR. induction 1 as [|x l _ IH Hhd]; constructor; [done|].
  destruct Hhd; constructor; auto.
Qed.

Section sortSlice_facts.
Context {A : Type} (less : A → A → bool).
Hypothesis less_asym : ∀ x y, less x y = true → less y x = false.

Lemma sinkLeft_Permutation x revPrefix : sinkLeft less x revPrefix ≡ₚ x :: revPrefix.
Proof.
  induction revPrefix as [|y rest IH]; [done|].
  simpl. destruct (less x y); [|done]. rewrite IH. apply perm_swap.
Qed.

Lemma sortSlice_Permutation data : sortSlice less data ≡ₚ data.
Proof.
  unfold sortSlice. rewrite reverse_Permutation.
  enough (∀ revPrefix, foldl (λ rp x, sinkLeft less x rp) revPrefix data ≡ₚ data ++ revPrefix) as H.
  { by rewrite H, app_nil_r. }
  induction data as [|x data IH]; intros revPrefix; [done|].
  simpl. rewrite IH, sinkLeft_Permutation. by rewrite Permutation_middle.
Qed.

Lemma sinkLeft_Sorted x revPrefix :
  Sorted (flip (inOrder less)) revPrefix → Sorted (flip (inOrder less)) (sinkLeft less x revPrefix).
Proof using less_asym.
  induction 1 as [|y rest Hrest IH Hhd]; simpl; [by repeat constructor|].
  destruct (less x y) eqn:Hxy.
  - constructor; [done|]. destruct rest as [|z rest]; simpl.
    + constructor. by apply less_asym.
    + destruct (less x z); constructor.
      * by apply HdRel_inv in Hhd.
      * by apply less_asym.
  - constructor; [by constructor|]. by constructor.
Qed.

(** The result of [sort.Slice] is in order. *)
Lemma sortSlice_Sorted data : Sorted (inOrder less) (sortSlice less data).
Proof using less_asym.
  unfold sortSlice. apply (Sorted_reverse (flip (inOrder less))).
  enough (∀ revPrefix, Sorted (flip (inOrder less)) revPrefix →
            Sorted (flip (inOrder less)) (foldl (λ rp x, sinkLeft less x rp) revPrefix data)) as H.
  { apply H. constructor. }
  induction data as [|x data IH]; intros revPrefix Hrev; [done|].
  simpl. by apply IH, sinkLeft_Sorted.
Qed.

Lemma Sorted_adjacent (l1 l2 : list A) x y :
  Sorted (inOrder less) (l1 ++ x :: y :: l2) → inOrder less x y.
Proof.
  induction l1 as [|z l1 IH]; simpl; intros Hs.
  - apply Sorted_inv in Hs as [_ Hhd]. by apply HdRel_inv in Hhd.
  - apply Sorted_inv in Hs as [Hs _]. auto.
Qed.

(** A slice that is in order is left as it is. *)
Lemma sortSlice_fixed data : Sorted (inOrder less) data → sortSlice less data = data.
Proof.
  unfold sortSlice. intros Hs.
  enough (∀ revPrefix, Sorted (inOrder less) (reverse revPrefix ++ data) →
            foldl (λ rp x, sinkLeft less x rp) revPrefix data = reverse data ++ revPrefix) as H.
  { rewrite H by done. by rewrite app_nil_r, reverse_involutive. }
  clear Hs. induction data as [|x data IH]; intros revPrefix Hs; [done|].
  assert (sinkLeft less x revPrefix = x :: revPrefix) as Hsink.
  { destruct revPrefix as [|y rest]; [done|]. simpl.
    rewrite reverse_cons, <- app_assoc in Hs. by rewrite (Sorted_adjacent _ _ _ _ Hs). }
  simpl. rewrite Hsink, IH.
  - by rewrite reverse_cons, <- app_assoc.
  - by rewrite reverse_cons, <- app_assoc.
Qed.

Lemma sortSlice_idempotent data :
  sortSlice less (sortSlice less data) = sortSlice less data.
Proof using less_asym. apply sortSlice_fixed, sortSlice_Sorted. Qed.
End sortSlice_facts.

(** ** The test for slices of records *)

Lemma isSliceOfDictsWithIds_loop_eq (slice : list Value) :
  isSliceOfDictsWithIds slice = isSliceOfDictsWithIds_loop slice.
Proof. by destruct slice. Qed.

(** The test panics only on a slice that holds a nil element. *)
Lemma isSliceOfDictsWithIds_None (slice : list Value) :
  isSliceOfDictsWithIds slice = None → VNil ∈ slice.
Proof.
  rewrite isSliceOfDictsWithIds_loop_eq.
  induction slice as [|item rest IH]; [done|]. simpl.
  destruct item as [ | | | | |m|]; try done; [by left|].
  destruct (has m "name"), (has m "key"), (has m "id"); try done.
  intros ?%IH. by right.
Qed.

(** On slices of mappings the code classifies as the specification says. *)
Lemma isSliceOfDictsWithIds_mappings (slice : list Value) :
  forallb isMapping slice = true →
  isSliceOfDictsWithIds slice = Some (identifiableRecordSequence slice).
Proof.
  rewrite isSliceOfDictsWithIds_loop_eq. unfold identifiableRecordSequence.
  intros Hall. rewrite Hall, andb_true_r.
  induction slice as [|item rest IH]; [done|].
  simpl in Hall. apply andb_true_iff in Hall as [Hitem Hrest].
  destruct item as [ | | | | |m|]; try done. simpl.
  destruct (has m "name"), (has m "key"), (has m "id"); try done. simpl.
  rewrite IH by done. by destruct rest.
Qed.

(** C3. The code does not classify as the claim says: a slice whose first
    element is a mapping with a [name] and whose second element is a string
    is taken for a slice of records, because the loop answers true at the
    first mapping that has an identifier key and never looks at the elements
    after it. The differ then hands such slices to the record matcher, which
    skips the elements that are not mappings: the change of the second
    element from [x] to [y] is lost. *)
Theorem isSliceOfDictsWithIds_early_return :
  isSliceOfDictsWithIds [VMap {[ KStr "name" := VStr "a" ]}; VStr "x"] = Some true
  ∧ identifiableRecordSequence [VMap {[ KStr "name" := VStr "a" ]}; VStr "x"] = false
  ∧ isSliceOfDictsWithIds [VStr "x"; VMap {[ KStr "name" := VStr "a" ]}] = Some false
  ∧ diffValues (VSlice [VMap {[ KStr "name" := VStr "a" ]}; VStr "x"])
               (VSlice [VMap {[ KStr "name" := VStr "a" ]}; VStr "y"]) "" = Some [].
Proof. repeat split; vm_compute; reflexivity. Qed.

(** ** The canonicalizer *)

Lemma mapSequence_lookup {A} (results : gmap Key (option A)) (m : gmap Key A) k :
  mapSequence results = Some m → results !! k = Some <$> m !! k.
Proof.
  unfold mapSequence. case_decide as Hall; [|done]. intros [= <-].
  rewrite lookup_omap. destruct (results !! k) as [[x|]|] eqn:Hk; try done.
  by destruct (Hall _ _ Hk).
Qed.

Lemma mapSequence_is_Some {A} (results : gmap Key (option A)) :
  map_Forall (λ _ o, is_Some o) results → is_Some (mapSequence results).
Proof. intros Hall. unfold mapSequence. by rewrite decide_True. Qed.

Lemma normalizeValue_map_lookup (m m' : gmap Key Value) k :
  normalizeValue (VMap m) = Some (VMap m') →
  match m !! k with
  | Some x => ∃ x', normalizeValue x = Some x' ∧ m' !! k = Some x'
  | None => m' !! k = None
  end.
Proof.
  simpl. destruct (mapSequence _) as [m''|] eqn:Hseq; [|done]. intros [= ->].
  apply (mapSequence_lookup _ _ k) in Hseq. rewrite lookup_fmap in Hseq.
  destruct (m !! k) as [x|]; simpl in Hseq.
  - destruct (m' !! k) as [x'|]; simplify_eq/=. by exists x'.
  - by destruct (m' !! k).
Qed.

Lemma normalizeValue_Some_nil (v : Value) : normalizeValue v = Some VNil → v = VNil.
Proof.
  destruct v as [ | | | | |m|l]; simpl; try done.
  - by destruct (mapSequence _).
  - destruct (mapM _ _) as [elements|]; simpl; [|done].
    destruct (isSliceOfDictsWithIds _) as [[]|]; done.
Qed.

(** C4. The canonicalizer is not total: on a sequence whose only element is
    Null the test for slices of records asks the nil element for the kind of
    its type, and the program panics. *)
Theorem normalizeValue_nil_element_panics :
  normalizeValue (VSlice [VNil]) = None.
Proof. reflexivity. Qed.

(** C2. The canonicalizer is not idempotent: the sequence of the text [zzz]
    and Null is canonicalized to the sequence of Null and [zzz] (sorted by
    the texts [<nil>] and [zzz]), and canonicalizing that panics, because now
    the nil element comes first. *)
Theorem normalizeValue_second_pass_panics :
  normalizeValue (VSlice [VStr "zzz"; VNil]) = Some (VSlice [VNil; VStr "zzz"])
  ∧ normalizeValue (VSlice [VNil; VStr "zzz"]) = None.
Proof. split; vm_compute; reflexivity. Qed.

Lemma lessByText_asym (a b : Value) : lessByText a b = true → lessByText b a = false.
Proof. apply ltb_asym. Qed.

Lemma normalizeValue_slice (l : list Value) :
  normalizeValue (VSlice l) =
    elements ← mapM normalizeValue l;
    records ← isSliceOfDictsWithIds elements;
    if records : bool then Some (VSlice elements)
    else Some (VSlice (sortSlice lessByText elements)).
Proof. done. Qed.

Lemma mapM_fixed (f : Value → option Value) (l l' : list Value) :
  Forall (λ x, ∀ x', f x = Some x' → x' = x) l → mapM f l = Some l' → l' = l.
Proof.
  intros Hall Hl'%mapM_Some_1. induction Hl' as [|x x' l l' Hx _ IH]; [done|].
  apply Forall_cons in Hall as [Hx' Hall]. f_equal; auto.
Qed.

(** Where the second pass of the canonicalizer does not panic, it changes
    nothing. *)
Lemma normalizeValue_idempotent_where_defined (v c c' : Value) :
  normalizeValue v = Some c → normalizeValue c = Some c' → c' = c.
Proof.
  revert c c'. induction v as [ | | | | |m IH|l IH] using Value_ind; intros c c';
    try (by intros [= <-] [= <-]).
  - intros Hc. assert (∃ m', c = VMap m') as [m' ->].
    { simpl in Hc. destruct (mapSequence _); simplify_eq/=. by eexists. }
    intros Hc'. assert (∃ m'', c' = VMap m'') as [m'' ->].
    { simpl in Hc'. destruct (mapSequence _); simplify_eq/=. by eexists. }
    f_equal. apply map_eq. intros k.
    pose proof (normalizeValue_map_lookup _ _ k Hc) as H1.
    pose proof (normalizeValue_map_lookup _ _ k Hc') as H2.
    destruct (m !! k) as [x|] eqn:Hk.
    + destruct H1 as (x' & Hx' & Hm'). rewrite Hm' in H2.
      destruct H2 as (x'' & Hx'' & ->). rewrite Hm'. f_equal.
      by eapply (IH k x Hk).
    + rewrite H1 in H2. by rewrite H1, H2.
  - rewrite normalizeValue_slice.
    destruct (mapM normalizeValue l) as [elements|] eqn:Hels; [|done]. simpl.
    assert (Forall (λ x, ∀ x', normalizeValue x = Some x' → x' = x) elements) as Hfixed.
    { apply mapM_Some_1 in Hels. clear -IH Hels.
      induction Hels as [|x y l k Hxy _ IHl]; [done|].
      apply Forall_cons in IH as [Hx IH]. constructor; eauto. }
    destruct (isSliceOfDictsWithIds elements) as [records|] eqn:Hrec; [|done]. simpl.
    destruct records; intros [= <-]; rewrite normalizeValue_slice.
    + destruct (mapM normalizeValue elements) as [els|] eqn:Hels2; [|done]. simpl.
      apply (mapM_fixed _ _ _ Hfixed) in Hels2 as ->. rewrite Hrec. simpl. congruence.
    + destruct (mapM normalizeValue (sortSlice _ _)) as [els|] eqn:Hels2; [|done]. simpl.
      apply mapM_fixed in Hels2 as ->; last first.
      { by rewrite sortSlice_Permutation. }
      destruct (isSliceOfDictsWithIds (sortSlice _ _)) as [[]|]; simpl; [congruence| |done].
      rewrite sortSlice_idempotent by apply lessByText_asym. congruence.
Qed.

Lemma nilFreeSlices_map (m : gmap Key Value) k x :
  nilFreeSlices (VMap m) = true → m !! k = Some x → nilFreeSlices x = true.
Proof.
  simpl. rewrite map_fold_foldr. intros Hall Hk%elem_of_map_to_list.
  induction (map_to_list m) as [|[k' y] l IH]; [by apply elem_of_nil in Hk|].
  simpl in Hall. apply andb_true_iff in Hall as [Hy Hall].
  apply elem_of_cons in Hk as [[= <- <-]|Hk]; auto.
Qed.

(** On values whose sequences hold no Null element the canonicalizer
    returns. *)
Lemma normalizeValue_total_nilFree (v : Value) :
  nilFreeSlices v = true → is_Some (normalizeValue v).
Proof.
  induction v as [ | | | | |m IH|l IH] using Value_ind; intros Hfree; try by eexists.
  - simpl. apply fmap_is_Some, mapSequence_is_Some.
    intros k o. rewrite lookup_fmap. destruct (m !! k) as [x|] eqn:Hk; [|done].
    intros [= <-]. eapply IH; [done|]. by eapply nilFreeSlices_map.
  - rewrite normalizeValue_slice. simpl in Hfree.
    assert (∃ elements, mapM normalizeValue l = Some elements ∧ VNil ∉ elements)
      as (elements & -> & Hnil).
    { induction l as [|x l IHl]; [exists []; split; [done|apply not_elem_of_nil]|].
      simpl in Hfree. apply andb_true_iff in Hfree as [Hx Hfree].
      apply andb_true_iff in Hx as [Hx Hxfree].
      apply Forall_cons in IH as [IHx IH].
      destruct (IHl IH Hfree) as (elements & Hels & Hnil).
      destruct (IHx Hxfree) as [x' Hx']. exists (x' :: elements).
      rewrite mapM_cons, Hx', Hels. split; [done|].
      intros [<-|?]%elem_of_cons; [|done].
      apply normalizeValue_Some_nil in Hx' as ->.
      by rewrite bool_decide_eq_true_2 in Hx. }
    simpl. destruct (isSliceOfDictsWithIds elements) as [[]|] eqn:Hrec; [by eexists..|].
    by apply isSliceOfDictsWithIds_None in Hrec.
Qed.

Lemma nilFreeSlices_VMap (m : gmap Key Value) :
  nilFreeSlices (VMap m) = true ↔ map_Forall (λ _ x, nilFreeSlices x = true) m.
Proof.
  split; [intros Hfree k x Hk; by eapply nilFreeSlices_map|].
  intros Hall. simpl. rewrite map_fold_foldr.
  assert (Forall (λ e, nilFreeSlices e.2 = true) (map_to_list m)) as Hlist.
  { apply Forall_forall. intros [k x] Hk%elem_of_map_to_list. by eapply Hall. }
  induction Hlist as [|[k x] l Hx _ IH]; [done|]. simpl in *. by rewrite Hx, IH.
Qed.

Lemma nilFreeSlices_VSlice (l : list Value) :
  nilFreeSlices (VSlice l) = true ↔ Forall (λ x, x ≠ VNil ∧ nilFreeSlices x = true) l.
Proof.
  simpl. induction l as [|x l IH]; [by split; [constructor|]|].
  simpl. rewrite Forall_cons, <- IH, !andb_true_iff, negb_true_iff, bool_decide_eq_false.
  done.
Qed.

(** The canonical form of such a value is such a value again. *)
Lemma normalizeValue_nilFree (v c : Value) :
  nilFreeSlices v = true → normalizeValue v = Some c → nilFreeSlices c = true.
Proof.
  revert c. induction v as [ | | | | |m IH|l IH] using Value_ind; intros c Hfree;
    try (by intros [= <-]).
  - intros Hc. assert (∃ m', c = VMap m') as [m' ->].
    { simpl in Hc. destruct (mapSequence _); simplify_eq/=. by eexists. }
    apply nilFreeSlices_VMap. intros k x' Hk.
    pose proof (normalizeValue_map_lookup _ _ k Hc) as Hlook.
    destruct (m !! k) as [x|] eqn:Hx; [|congruence].
    destruct Hlook as (x'' & Hx'' & Hm'). simplify_eq.
    eapply (IH k x Hx); [|done]. by eapply nilFreeSlices_map.
  - rewrite normalizeValue_slice.
    destruct (mapM normalizeValue l) as [elements|] eqn:Hels; [|done]. simpl.
    assert (Forall (λ x, x ≠ VNil ∧ nilFreeSlices x = true) elements) as Hall.
    { apply nilFreeSlices_VSlice in Hfree. apply mapM_Some_1 in Hels. clear -IH Hels Hfree.
      induction Hels as [|x y l k Hxy _ IHl]; [done|].
      apply Forall_cons in IH as [Hx IH]. apply Forall_cons in Hfree as [[Hnil Hxfree] Hfree].
      constructor; [|by apply IHl]. split; [|by eapply Hx].
      intros ->. by apply normalizeValue_Some_nil in Hxy. }
    destruct (isSliceOfDictsWithIds elements) as [[]|]; simpl; [| |done]; intros [= <-];
      apply nilFreeSlices_VSlice; [done|].
    by rewrite sortSlice_Permutation.
Qed.

(** On values whose sequences hold no Null element the canonicalizer is
    idempotent. *)
Lemma normalizeValue_idempotent_nilFree (v c : Value) :
  nilFreeSlices v = true → normalizeValue v = Some c → normalizeValue c = Some c.
Proof.
  intros Hfree Hc.
  destruct (normalizeValue_total_nilFree c) as [c' Hc'].
  { by eapply normalizeValue_nilFree. }
  by rewrite Hc', (normalizeValue_idempotent_where_defined _ _ _ Hc Hc').
Qed.

(** ** The lookup map of the record matcher *)

Lemma groupByIdentifier_snoc (slice : list Value) (item : Value) :
  groupByIdentifier (slice ++ [item]) =
  match identifier item with
  | Some key => <[key := item]> (groupByIdentifier slice)
  | None => groupByIdentifier slice
  end.
Proof. unfold groupByIdentifier. by rewrite foldl_app. Qed.

(** Every entry of the lookup map is an element of the slice, filed under
    its own identifier. *)
Lemma groupByIdentifier_lookup (slice : list Value) key item :
  groupByIdentifier slice !! key = Some item → item ∈ slice ∧ identifier item = Some key.
Proof.
  induction slice as [|x slice IH] using rev_ind; [done|].
  rewrite groupByIdentifier_snoc. destruct (identifier x) as [k|] eqn:Hx.
  - rewrite lookup_insert. case_decide as Hk.
    + intros [= <-]. subst. split; [|done]. apply elem_of_app. right. by left.
    + intros [??]%IH. split; [|done]. apply elem_of_app. by left.
  - intros [??]%IH. split; [|done]. apply elem_of_app. by left.
Qed.

(** The entry under an identifier is the last element of the slice that has
    this identifier. *)
Lemma groupByIdentifier_last (before after : list Value) item key :
  identifier item = Some key →
  Forall (λ later, identifier later ≠ Some key) after →
  groupByIdentifier (before ++ item :: after) !! key = Some item.
Proof.
  intros Hitem. induction after as [|x after IH] using rev_ind; intros Hafter.
  - rewrite groupByIdentifier_snoc, Hitem. by rewrite lookup_insert_eq.
  - apply Forall_app in Hafter as [Hafter Hx]. apply Forall_inv in Hx.
    replace (before ++ item :: after ++ [x]) with ((before ++ item :: after) ++ [x])
      by by rewrite <- app_assoc.
    rewrite groupByIdentifier_snoc. destruct (identifier x) as [k|]; [|by apply IH].
    rewrite lookup_insert_ne by congruence. by apply IH.
Qed.

Lemma groupByIdentifier_is_Some (slice : list Value) item key :
  item ∈ slice → identifier item = Some key → is_Some (groupByIdentifier slice !! key).
Proof.
  intros Hin Hitem. induction slice as [|x slice IH] using rev_ind; [by apply elem_of_nil in Hin|].
  rewrite groupByIdentifier_snoc. apply elem_of_app in Hin as [Hin|Hin].
  - destruct (identifier x) as [k|]; [|by apply IH].
    rewrite lookup_insert. case_decide; [by eexists|by apply IH].
  - apply list_elem_of_singleton in Hin as <-. rewrite Hitem, lookup_insert_eq. by eexists.
Qed.

(** The lookup map, exactly: under an identifier it holds the last element
    of the slice that has this identifier, and nothing when no element has
    it. *)
Lemma groupByIdentifier_lookup_last (slice : list Value) (key : string) :
  groupByIdentifier slice !! key = last (filter (λ item, identifier item = Some key) slice).
Proof.
  induction slice as [|x slice IH] using rev_ind; [done|].
  rewrite groupByIdentifier_snoc, filter_app, filter_cons, filter_nil.
  destruct (identifier x) as [k|] eqn:Hx.
  - destruct (decide (k = key)) as [->|Hk].
    + rewrite lookup_insert_eq, decide_True by done. by rewrite last_snoc.
    + rewrite lookup_insert_ne by done. rewrite decide_False by congruence.
      by rewrite app_nil_r.
  - rewrite decide_False by congruence. by rewrite app_nil_r.
Qed.


(** ** The recursion of [diffValues] *)

Lemma recOn_elem (f : Value → Value → string → option (list Change)) (l : list Value) item :
  item ∈ l → recOn ((λ x, (x, f x)) <$> l) item = f item.
Proof.
  unfold recOn. induction l as [|x l IH]; [by intros ?%elem_of_nil|].
  intros Hin. simpl. case_bool_decide as Heq.
  - by subst.
  - apply elem_of_cons in Hin as [->|Hin]; [done|]. auto.
Qed.

Lemma diffSliceOfDictsWith_ext (f g : Value → Value → string → option (list Change))
    (oldSlice newSlice : list Value) (path : string) :
  (∀ oldItem, oldItem ∈ oldSlice → f oldItem = g oldItem) →
  diffSliceOfDictsWith f oldSlice newSlice path = diffSliceOfDictsWith g oldSlice newSlice path.
Proof.
  intros Hfg. unfold diffSliceOfDictsWith.
  erewrite Forall_mapM_ext; [done|].
  apply Forall_forall. intros [key oldItem] Hin%elem_of_map_to_list.
  apply groupByIdentifier_lookup in Hin as [Hin _]. by rewrite (Hfg _ Hin).
Qed.

(** [diffValues] is its body, with itself for every recursive call: the
    equation that the Go function satisfies. *)
Lemma diffValues_unfold (oldVal newVal : Value) (path : string) :
  diffValues oldVal newVal path = diffValuesBody diffValues diffValues oldVal newVal path.
Proof.
  destruct oldVal as [ | | | | | |oldSlice]; try reflexivity.
  change (diffValuesBody diffValues (recOn ((λ item, (item, diffValues item)) <$> oldSlice))
            (VSlice oldSlice) newVal path
          = diffValuesBody diffValues diffValues (VSlice oldSlice) newVal path).
  unfold diffValuesBody. destruct newVal; try reflexivity.
  erewrite diffSliceOfDictsWith_ext; [reflexivity|].
  intros oldItem Hin. by apply recOn_elem.
Qed.

(** The map case ranges over the old map in the order of [map_to_list]. *)
Lemma diffMaps_mapM (rec : Value → Value → string → option (list Change))
    (oldMap newMap : gmap Key Value) (path : string) :
  diffMaps rec oldMap newMap path =
    found ← mapM (λ '(key, oldValue),
                    match newMap !! key with
                    | None => Some [mkChange Deletion (path +:+ "." +:+ SprintKey key) oldValue VNil]
                    | Some newValue => rec oldValue newValue (path +:+ "." +:+ SprintKey key)
                    end) (map_to_list oldMap);
    Some (concat found ++
          omap (λ '(key, newValue),
                  match oldMap !! key with
                  | Some _ => None
                  | None => Some (mkChange Addition (path +:+ "." +:+ SprintKey key) VNil newValue)
                  end) (map_to_list newMap)).
Proof.
  unfold diffMaps. rewrite map_fold_foldr.
  generalize (omap (λ '(key, newValue),
                      match oldMap !! key with
                      | Some _ => None
                      | None => Some (mkChange Addition (path +:+ "." +:+ SprintKey key) VNil newValue)
                      end) (map_to_list newMap)).
  intros additions. induction (map_to_list oldMap) as [|[key oldValue] entries IH]; [done|].
  rewrite mapM_cons. cbn [foldr uncurry]. cbn beta iota.
  destruct (match newMap !! key with Some _ => _ | None => _ end) as [subChanges|]; [|done].
  cbn [mbind option_bind]. destruct (foldr _ _ entries) as [rest|];
    destruct (mapM _ entries) as [found|]; simplify_eq/=; try done.
  apply app_inv_tail in IH as ->. by rewrite <- app_assoc.
Qed.

(** ** The tree differ: equal values, and values of different types *)

(** The guard of [diffValues]: what [reflect.DeepEqual] holds equal gives
    no change. *)
Lemma diffValues_DeepEqual (v w : Value) (path : string) :
  DeepEqual v w = true → diffValues v w path = Some [].
Proof. intros Heq. rewrite diffValues_unfold. unfold diffValuesBody. by rewrite Heq. Qed.



(** C5. Two values that are both present (not nil) and of different dynamic
    types give exactly one [Modification] at the path, carrying both values
    whole; nothing is reported for their children. *)
Theorem diffValues_type_change (oldVal newVal : Value) (path : string) :
  oldVal ≠ VNil → newVal ≠ VNil → TypeOf oldVal ≠ TypeOf newVal →
  diffValues oldVal newVal path = Some [mkChange Modification path oldVal newVal].
Proof.
  intros Ho Hn Ht. rewrite diffValues_unfold. unfold diffValuesBody.
  assert (DeepEqual oldVal newVal = false) as ->.
  { apply not_true_is_false. by intros ?%DeepEqual_TypeOf. }
  by rewrite (bool_decide_eq_true_2 _ Ht), (bool_decide_eq_true_2 _ Ho),
    (bool_decide_eq_true_2 _ Hn).
Qed.

(** ** The tree differ: positional comparison of slices *)

Lemma imap_seq_lookup {B} (f : nat → Value → B) (l : list Value) :
  imap f l = (λ j, f j (l !!! j)) <$> seq 0 (length l).
Proof.
  revert f. induction l as [|x l IH]; intros f; [done|].
  simpl. f_equal. rewrite IH, <- fmap_S_seq, <- list_fmap_compose. done.
Qed.

Section positional.
Variable rec : Value → Value → string → option (list Change).

Lemma diffPositional_positionalChanges (oldSlice newSlice : list Value) path i :
  diffPositional rec oldSlice newSlice path i = positionalChanges rec oldSlice newSlice path i.
Proof.
  revert newSlice i. induction oldSlice as [|o oldRest IH]; intros newSlice i.
  - unfold positionalChanges. simpl. destruct newSlice as [|n newRest]; [done|].
    rewrite imap_seq_lookup. simpl. by rewrite Nat.add_0_r.
  - destruct newSlice as [|n newRest].
    + unfold positionalChanges. cbn [diffPositional length Nat.min mapM seq].
      rewrite imap_seq_lookup. simpl. by rewrite Nat.add_0_r, app_nil_r.
    + cbn [diffPositional]. rewrite IH. unfold positionalChanges.
      cbn [length Nat.min Nat.sub seq mapM]. rewrite Nat.add_0_r.
      cbn [lookup_total list_lookup_total].
      destruct (rec o n _) as [subChanges|]; [|done]. cbn [mbind option_bind].
      rewrite <- !fmap_S_seq, mapM_fmap_option, <- !list_fmap_compose.
      erewrite (mapM_ext (_ ∘ S)); last first.
      { intros j. simpl. by rewrite Nat.add_succ_r. }
      destruct (mapM _ _) as [common|]; [|done].
      cbn [mret option_ret mbind option_bind concat].
      f_equal. rewrite <- app_assoc. do 2 f_equal.
      f_equal; apply list_fmap_ext; intros ? j ?; simpl; by rewrite Nat.add_succ_r.
Qed.
End positional.

(** Two slices that the differ compares by position (its test that both
    are slices of records answers false): the result is the recursive diff of
    the elements at every index below the shorter length, each at
    [path[index]], followed by one [Deletion] per surplus element of the old
    slice, or one [Addition] per surplus element of the new slice, at
    [path[index]] and carrying that element; a panic of one of the recursive
    diffs is the panic of the whole. *)
Lemma diffValues_positional (oldSlice newSlice : list Value) (path : string) :
  bothSlicesOfDictsWithIds oldSlice newSlice = Some false →
  diffValues (VSlice oldSlice) (VSlice newSlice) path =
    common ← mapM (λ i, diffValues (oldSlice !!! i) (newSlice !!! i)
                          (path +:+ "[" +:+ Itoa (Z.of_nat i) +:+ "]"))
                  (seq 0 (length oldSlice `min` length newSlice));
    Some (concat common
          ++ ((λ i, mkChange Deletion (path +:+ "[" +:+ Itoa (Z.of_nat i) +:+ "]")
                      (oldSlice !!! i) VNil)
                <$> seq (length newSlice) (length oldSlice - length newSlice))
          ++ ((λ i, mkChange Addition (path +:+ "[" +:+ Itoa (Z.of_nat i) +:+ "]")
                      VNil (newSlice !!! i))
                <$> seq (length oldSlice) (length newSlice - length oldSlice))).
Proof.
  intros Hrec.
  change (diffValues (VSlice oldSlice) (VSlice newSlice) path
          = positionalChanges diffValues oldSlice newSlice path 0).
  rewrite <- diffPositional_positionalChanges, diffValues_unfold.
  unfold diffValuesBody. destruct (DeepEqual _ _) eqn:Heq.
  - apply DeepEqual_VSlice in Heq. clear Hrec. generalize 0.
    induction Heq as [|o n oldRest newRest Hon _ IH]; intros i; [done|].
    cbn [diffPositional]. rewrite (diffValues_DeepEqual _ _ _ Hon). simpl. by rewrite <- IH.
  - simpl. rewrite Hrec. simpl. done.
Qed.

(** C7. The positional comparison is not what every pair of sequences gets
    that are not both sequences of records. The sequences of a mapping with
    a [name] followed by the text [x], and by the text [y], are no sequences
    of records (their second element is no mapping), and compared by
    position they differ at index 1; but the test of the differ takes both
    for records, at its first mapping with an identifier key, and the record
    matcher, which skips the texts, reports no change. On the sequences of
    Null and 1, and of Null and 2, the test panics. *)
Theorem diffValues_positional_not_reached :
  identifiableRecordSequence [VMap {[ KStr "name" := VStr "a" ]}; VStr "x"] = false
  ∧ positionalChanges diffValues [VMap {[ KStr "name" := VStr "a" ]}; VStr "x"]
      [VMap {[ KStr "name" := VStr "a" ]}; VStr "y"] "" 0
    = Some [mkChange Modification "[1]" (VStr "x") (VStr "y")]
  ∧ diffValues (VSlice [VMap {[ KStr "name" := VStr "a" ]}; VStr "x"])
               (VSlice [VMap {[ KStr "name" := VStr "a" ]}; VStr "y"]) "" = Some []
  ∧ identifiableRecordSequence [VNil; VInt 1] = false
  ∧ diffValues (VSlice [VNil; VInt 1]) (VSlice [VNil; VInt 2]) "" = None.
Proof. repeat split; vm_compute; reflexivity. Qed.

(** ** The record matcher *)

(** C8. When two elements of a slice have the same identifier, the lookup map
    of the record matcher holds, under that identifier, the one that comes
    last in the slice; building the map cannot fail. *)
Theorem groupByIdentifier_collision (slice : list Value) (i j : nat)
    (earlier later : Value) (key : string) :
  i < j →
  slice !! i = Some earlier → identifier earlier = Some key →
  slice !! j = Some later → identifier later = Some key →
  (∀ k item, j < k → slice !! k = Some item → identifier item ≠ Some key) →
  groupByIdentifier slice !! key = Some later.
Proof.
  intros _ _ _ Hj Hlater Hlast.
  rewrite <- (take_drop_middle slice j later Hj).
  apply groupByIdentifier_last; [done|].
  apply Forall_forall. intros item [k Hk]%list_elem_of_lookup.
  rewrite lookup_drop in Hk. eapply Hlast; [|done]. lia.
Qed.

Lemma omap_filter_fmap {A B} (P : A → Prop) `{!∀ x, Decision (P x)} (f : A → option B)
    (g : A → B) (l : list A) :
  (∀ x, f x = if decide (P x) then Some (g x) else None) →
  omap f l = g <$> filter P l.
Proof.
  intros Hf. induction l as [|x l IH]; [done|].
  rewrite filter_cons. csimpl. rewrite Hf.
  destruct (decide (P x)); csimpl; by rewrite IH.
Qed.

Lemma NoDup_omap {A B} (f : A → option B) (l : list A) :
  (∀ x y z, f x = Some z → f y = Some z → x = y) → NoDup l → NoDup (omap f l).
Proof.
  intros Hinj. induction 1 as [|x l Hx Hl IH]; simpl; [constructor|].
  destruct (f x) as [z|] eqn:Hfx; [|done]. constructor; [|done].
  intros (y & Hy & Hfy)%list_elem_of_omap. by rewrite (Hinj _ _ _ Hfx Hfy) in Hx.
Qed.

Lemma mapM_Permutation {A B} (f : A → option B) (l k : list A) :
  l ≡ₚ k → option_Forall2 (≡ₚ) (mapM f l) (mapM f k).
Proof.
  induction 1 as [|x l k _ IH|x y l|l k m _ IH1 _ IH2].
  - by constructor.
  - rewrite !mapM_cons. destruct (f x); simpl; [|constructor].
    destruct IH; simpl; constructor. by constructor.
  - rewrite !mapM_cons. destruct (f x), (f y); simpl; try constructor;
      destruct (mapM f l); simpl; constructor. apply perm_swap.
  - by etrans.
Qed.

Section matcher.
Variables (oldMap newMap : gmap string Value) (path : string).

Lemma additions_only_new :
  omap (λ '(key, newItem),
          match oldMap !! key with
          | Some _ => None
          | None => Some (mkChange Addition (path +:+ "[" +:+ key +:+ "]") VNil newItem)
          end) (map_to_list newMap)
  ≡ₚ additionOf path <$> map_to_list (newMap ∖ oldMap).
Proof.
  erewrite (omap_filter_fmap (λ e, oldMap !! e.1 = None) _ (additionOf path)); last first.
  { intros [key newItem]. simpl. by destruct (oldMap !! key). }
  apply fmap_Permutation, NoDup_Permutation.
  - apply NoDup_filter, NoDup_map_to_list.
  - apply NoDup_map_to_list.
  - intros [key item]. rewrite list_elem_of_filter, !elem_of_map_to_list.
    rewrite lookup_difference_Some. simpl. tauto.
Qed.

Lemma deletions_only_old :
  deletionOf path <$> filter (λ e, newMap !! e.1 = None) (map_to_list oldMap)
  ≡ₚ deletionOf path <$> map_to_list (oldMap ∖ newMap).
Proof.
  apply fmap_Permutation, NoDup_Permutation.
  - apply NoDup_filter, NoDup_map_to_list.
  - apply NoDup_map_to_list.
  - intros [key item]. rewrite list_elem_of_filter, !elem_of_map_to_list.
    rewrite lookup_difference_Some. simpl. tauto.
Qed.
(** The identifiers in both maps give the recursive diff of the two items. *)
Variable rec : Value → Value → string → option (list Change).

Lemma found_deletions_matches (entries : list (string * Value)) :
  match mapM (diffOf rec path) (omap (λ e, (λ newItem, (e.1, (e.2, newItem))) <$> newMap !! e.1) entries) with
  | Some subs =>
      ∃ found,
        mapM (λ '(key, oldItem),
                match newMap !! key with
                | Some newItem => rec oldItem newItem (path +:+ "[" +:+ key +:+ "]")
                | None => Some [mkChange Deletion (path +:+ "[" +:+ key +:+ "]") oldItem VNil]
                end) entries = Some found
        ∧ concat found ≡ₚ concat subs ++ (deletionOf path <$> filter (λ e, newMap !! e.1 = None) entries)
  | None =>
      mapM (λ '(key, oldItem),
              match newMap !! key with
              | Some newItem => rec oldItem newItem (path +:+ "[" +:+ key +:+ "]")
              | None => Some [mkChange Deletion (path +:+ "[" +:+ key +:+ "]") oldItem VNil]
              end) entries = None
  end.
Proof.
  unfold diffOf. induction entries as [|[key oldItem] entries IH]; [by exists []|].
  rewrite filter_cons, mapM_cons. cbn beta iota. cbn [omap list_omap fst snd].
  destruct (newMap !! key) as [newItem|] eqn:Hkey.
  - rewrite decide_False by done. cbn [fmap option_fmap option_map].
    rewrite mapM_cons. cbn [fst snd].
    destruct (rec oldItem newItem _) as [sub|]; cbn [mbind option_bind]; [|done].
    destruct (mapM _ (omap _ _)) as [subs|]; cbn [mbind option_bind].
    + destruct IH as (found & -> & Hperm). eexists; split; [done|].
      cbn [concat]. by rewrite Hperm, app_assoc.
    + by rewrite IH.
  - rewrite decide_True by done. cbn [fmap option_fmap option_map mbind option_bind].
    destruct (mapM _ (omap _ _)) as [subs|].
    + destruct IH as (found & -> & Hperm). eexists; split; [done|].
      cbn [concat]. rewrite Hperm, fmap_cons. by rewrite <- Permutation_middle.
    + by rewrite IH.
Qed.

Lemma matches_map_zip :
  omap (λ e, (λ newItem, (e.1, (e.2, newItem))) <$> newMap !! e.1) (map_to_list oldMap)
  ≡ₚ map_to_list (map_zip oldMap newMap).
Proof.
  apply NoDup_Permutation.
  - apply NoDup_omap; [|apply NoDup_map_to_list].
    intros [k1 o1] [k2 o2] z. simpl.
    destruct (newMap !! k1), (newMap !! k2); simpl; congruence.
  - apply NoDup_map_to_list.
  - intros [key [oldItem newItem]].
    rewrite list_elem_of_omap, elem_of_map_to_list, map_lookup_zip_Some. simpl. split.
    + intros ([k o] & Hin%elem_of_map_to_list & Hn). simpl in Hn.
      destruct (newMap !! k) eqn:Hk; simplify_eq/=. done.
    + intros [Ho Hn]. exists (key, oldItem). rewrite elem_of_map_to_list.
      split; [done|]. simpl. by rewrite Hn.
Qed.

End matcher.

(** C1. The record matcher. The identifier of an element is the [%v] text of
    the first of its fields [name], [key], [id]. The lookup map of a slice
    holds, under every identifier that an element of the slice has, the
    last element with that identifier, and nothing under any other text: so
    every entry is an element of the slice under that element's identifier,
    and every element with an identifier has its identifier in the map. The
    changes are, up to the order in which Go ranges over the two lookup
    maps: for every identifier in both maps the recursive diff of the two
    elements at [path[identifier]]; for every identifier only in the old map
    one [Deletion] at [path[identifier]] carrying the old element; for every
    identifier only in the new map one [Addition] at [path[identifier]]
    carrying the new element. The matcher panics exactly when one of the
    recursive diffs does. *)
Theorem diffSliceOfDicts_by_identifier (oldSlice newSlice : list Value) (path : string) :
  (∀ m, identifier (VMap m)
        = Sprint <$> (m !! KStr "name" ∪ m !! KStr "key" ∪ m !! KStr "id")) ∧
  (∀ slice key,
     groupByIdentifier slice !! key
     = last (filter (λ item, identifier item = Some key) slice)) ∧
  (∀ slice key item,
     groupByIdentifier slice !! key = Some item → item ∈ slice ∧ identifier item = Some key) ∧
  (∀ slice key item,
     item ∈ slice → identifier item = Some key → is_Some (groupByIdentifier slice !! key)) ∧
  match mapM (diffOf diffValues path)
             (map_to_list (map_zip (groupByIdentifier oldSlice) (groupByIdentifier newSlice))) with
  | Some subs =>
      ∃ changes,
        diffSliceOfDicts oldSlice newSlice path = Some changes
        ∧ changes ≡ₚ concat subs
                     ++ (deletionOf path
                           <$> map_to_list (groupByIdentifier oldSlice ∖ groupByIdentifier newSlice))
                     ++ (additionOf path
                           <$> map_to_list (groupByIdentifier newSlice ∖ groupByIdentifier oldSlice))
  | None => diffSliceOfDicts oldSlice newSlice path = None
  end.
Proof.
  split_and!.
  - intros m. simpl.
    by destruct (m !! KStr "name"), (m !! KStr "key"), (m !! KStr "id").
  - apply groupByIdentifier_lookup_last.
  - apply groupByIdentifier_lookup.
  - intros slice key item. apply groupByIdentifier_is_Some.
  - unfold diffSliceOfDicts, diffSliceOfDictsWith.
    generalize (groupByIdentifier oldSlice) (groupByIdentifier newSlice).
    intros oldMap newMap.
    pose proof (found_deletions_matches newMap path diffValues (map_to_list oldMap)) as Hfound.
    pose proof (mapM_Permutation (diffOf diffValues path) _ _
                  (matches_map_zip oldMap newMap)) as Hperm.
    inversion Hperm as [subs' subs Hsubs Heq1 Heq2|Heq1 Heq2];
      rewrite <- Heq1 in Hfound.
    + destruct Hfound as (found & -> & Hconcat). eexists. split; [done|].
      by rewrite Hconcat, Hsubs, deletions_only_old, additions_only_new, app_assoc.
    + by rewrite Hfound.
Qed.






(** ** The renderer *)

Section renderer_facts.
Variables red green yellow : string → string.
Variable yamlEncode : Value → option string.

Lemma lessByPath_asym (a b : Change) : lessByPath a b = true → lessByPath b a = false.
Proof. apply ltb_asym. Qed.

Lemma generateColoredDiff_changes (changes : list Change) :
  (generateColoredDiff red green yellow yamlEncode changes).1 = sortSlice lessByPath changes.
Proof. by destruct changes. Qed.

(** C9, as the code has it. The renderer sorts the caller's collection in
    place: after the call it holds the same changes, in the order of their
    paths; a collection that is already in the order of its paths is left
    unchanged, and so rendering the collection once more moves nothing. The
    returned text is the text of the sorted changes, and [No changes found.]
    for the empty collection. *)
Theorem generateColoredDiff_sorts_in_place (changes : list Change) :
  (generateColoredDiff red green yellow yamlEncode changes).1 ≡ₚ changes
  ∧ Sorted (λ a b, (Path a ≤ Path b)%string)
      (generateColoredDiff red green yellow yamlEncode changes).1
  ∧ (Sorted (λ a b, (Path a ≤ Path b)%string) changes →
     (generateColoredDiff red green yellow yamlEncode changes).1 = changes)
  ∧ (generateColoredDiff red green yellow yamlEncode
       (generateColoredDiff red green yellow yamlEncode changes).1).1
    = (generateColoredDiff red green yellow yamlEncode changes).1
  ∧ (generateColoredDiff red green yellow yamlEncode changes).2
    = if decide (changes = []) then "No changes found." +:+ nl
      else String.concat ""
             (renderChange red green yellow yamlEncode
                <$> (generateColoredDiff red green yellow yamlEncode changes).1).
Proof.
  rewrite !generateColoredDiff_changes. split_and!.
  - apply sortSlice_Permutation.
  - eapply Sorted_weaken; [|apply (sortSlice_Sorted _ lessByPath_asym)].
    intros a b. apply ltb_false_le.
  - intros Hs. apply sortSlice_fixed.
    eapply Sorted_weaken; [|done]. intros a b. apply ltb_false_le.
  - apply sortSlice_idempotent, lessByPath_asym.
  - by destruct changes.
Qed.
End renderer_facts.

(** ** The scenarios of the tests (main_test.go)

    The lists are in the order in which the embedding ranges over maps. *)

(** TestDifferentTypesModification. *)
Example scenario_scalar_change :
  diffValues (VMap {[ KStr "key" := VStr "string_value" ]}) (VMap {[ KStr "key" := VInt 123 ]}) ""
  = Some [mkChange Modification ".key" (VStr "string_value") (VInt 123)].
Proof. vm_compute. reflexivity. Qed.

(** TestComplexNestedStructures. *)
Example scenario_nested_changes :
  diffValues (config "localhost" 5432 true 300) (config "remotehost" 5432 false 600) ""
  = Some [mkChange Modification ".config.cache.enabled" (VBool true) (VBool false);
          mkChange Modification ".config.cache.ttl" (VInt 300) (VInt 600);
          mkChange Modification ".config.database.host" (VStr "localhost") (VStr "remotehost")].
Proof. vm_compute. reflexivity. Qed.

(** TestArrayWithIdentifiers. *)
Example scenario_records_reordered :
  diffValues (VMap {[ KStr "users" := VSlice [user "Alice" 30; user "Bob" 25] ]})
             (VMap {[ KStr "users" := VSlice [user "Bob" 26; user "Alice" 30] ]}) ""
  = Some [mkChange Modification ".users[Bob].age" (VInt 25) (VInt 26)].
Proof. vm_compute. reflexivity. Qed.

(** TestDiffValuesWithNil. *)
Example scenario_nil :
  diffValues VNil (VStr "value") ".testpath"
  = Some [mkChange Addition ".testpath" VNil (VStr "value")]
  ∧ diffValues (VStr "value") VNil ".testpath"
    = Some [mkChange Deletion ".testpath" (VStr "value") VNil]
  ∧ diffValues VNil VNil ".testpath" = Some [].
Proof. repeat split; vm_compute; reflexivity. Qed.

(** TestNormalizeValue. *)
Example scenario_normalize :
  normalizeValue (VSlice [VStr "zebra"; VStr "apple"; VStr "mango"])
  = Some (VSlice [VStr "apple"; VStr "mango"; VStr "zebra"]).
Proof. vm_compute. reflexivity. Qed.

(** TestIsSliceOfDictsWithIds. *)
Example scenario_isSliceOfDictsWithIds :
  isSliceOfDictsWithIds [user "Alice" 30; user "Bob" 25] = Some true
  ∧ isSliceOfDictsWithIds [VMap {[ KStr "id" := VInt 1; KStr "value" := VStr "first" ]}] = Some true
  ∧ isSliceOfDictsWithIds [VMap {[ KStr "key" := VStr "k1"; KStr "data" := VStr "d1" ]}] = Some true
  ∧ isSliceOfDictsWithIds [VMap {[ KStr "value" := VStr "v1" ]}; VMap {[ KStr "value" := VStr "v2" ]}]
    = Some false
  ∧ isSliceOfDictsWithIds [] = Some false
  ∧ isSliceOfDictsWithIds [VStr "a"; VStr "b"; VStr "c"] = Some false.
Proof. repeat split; vm_compute; reflexivity. Qed.

(** TestChangeOrdering and TestNoChanges, without colours. *)
Example scenario_rendering :
  (generateColoredDiff id id id (λ _, None)
     [mkChange Addition ".zebra" VNil (VStr "animal");
      mkChange Deletion ".apple" (VStr "fruit") VNil;
      mkChange Modification ".banana" (VStr "yellow") (VStr "green");
      mkChange Addition ".carrot" VNil (VStr "vegetable")]).2
  = "- .apple: fruit" +:+ nl +:+ "~ .banana: yellow → green" +:+ nl
    +:+ "+ .carrot: vegetable" +:+ nl +:+ "+ .zebra: animal" +:+ nl
  ∧ generateColoredDiff id id id (λ _, None) [] = ([], "No changes found." +:+ nl).
Proof. split; vm_compute; reflexivity. Qed.

(** * Further properties of the code *)

(** ** Sorting by a text *)

Lemma NoDup_fmap_elem_inj {A B} (f : A → B) (l : list A) x y :
  NoDup (f <$> l) → x ∈ l → y ∈ l → f x = f y → x = y.
Proof.
  induction l as [|z l IH]; [by intros _ ?%elem_of_nil|].
  rewrite fmap_cons, NoDup_cons. intros [Hz Hl] Hx Hy Hxy.
  apply elem_of_cons in Hx as [->|Hx]; apply elem_of_cons in Hy as [->|Hy]; auto.
  - destruct Hz. rewrite Hxy. by apply list_elem_of_fmap_2.
  - destruct Hz. rewrite <- Hxy. by apply list_elem_of_fmap_2.
Qed.

Section sortSlice_by_text.
Context {A : Type} (text : A → string).

Lemma lessBy_asym (a b : A) : lessBy text a b = true → lessBy text b a = false.
Proof. apply ltb_asym. Qed.

Lemma sortSlice_lessBy_Sorted (data : list A) :
  Sorted (λ a b, (text a ≤ text b)%string) (sortSlice (lessBy text) data).
Proof.
  eapply Sorted_weaken; [|apply (sortSlice_Sorted _ lessBy_asym)].
  intros a b. apply ltb_false_le.
Qed.

(** Two slices with the same elements, all of different texts, are sorted to
    the same slice. *)
Lemma sortSlice_lessBy_unique (data data' : list A) :
  data ≡ₚ data' → NoDup (text <$> data) →
  sortSlice (lessBy text) data = sortSlice (lessBy text) data'.
Proof.
  intros Hperm Hdup.
  assert (Transitive (λ a b : A, (text a ≤ text b)%string)) as Htrans.
  { intros a b c ??. by etrans. }
  eapply (Sorted_unique_strong (λ a b : A, (text a ≤ text b)%string)).
  - intros x1 x2 Hx1 Hx2 H12 H21.
    rewrite sortSlice_Permutation in Hx1. rewrite sortSlice_Permutation, <- Hperm in Hx2.
    eapply NoDup_fmap_elem_inj; [done..|]. by apply (anti_symm String.le).
  - apply sortSlice_lessBy_Sorted.
  - apply sortSlice_lessBy_Sorted.
  - by rewrite !sortSlice_Permutation.
Qed.
End sortSlice_by_text.

(** ** The test for slices of records, exactly *)

Lemma isSliceOfDictsWithIds_loop_cons (item : Value) (rest : list Value) :
  isSliceOfDictsWithIds_loop (item :: rest) =
  match item with
  | VNil => None
  | VMap _ => if hasIdentifierKey item then Some true else isSliceOfDictsWithIds_loop rest
  | _ => Some false
  end.
Proof.
  destruct item as [ | | | | |m|]; try done. simpl.
  by destruct (has m "name"), (has m "key"), (has m "id").
Qed.

Lemma isSliceOfDictsWithIds_loop_app (before rest : list Value) :
  Forall plainMapping before →
  isSliceOfDictsWithIds_loop (before ++ rest) = isSliceOfDictsWithIds_loop rest.
Proof.
  induction 1 as [|item before [Hmap Hid] _ IH]; [done|].
  rewrite <- app_comm_cons, isSliceOfDictsWithIds_loop_cons.
  destruct item; try done. by rewrite Hid.
Qed.

(** X1. The test answers true exactly for the slices that begin with
    mappings without identifier key and then have a mapping with one;
    whatever follows that mapping is not looked at. *)
Theorem isSliceOfDictsWithIds_true_iff (slice : list Value) :
  isSliceOfDictsWithIds slice = Some true ↔
  ∃ before item after,
    slice = before ++ item :: after
    ∧ Forall plainMapping before
    ∧ isMapping item = true ∧ hasIdentifierKey item = true.
Proof.
  rewrite isSliceOfDictsWithIds_loop_eq. split.
  - induction slice as [|item rest IH]; [done|].
    rewrite isSliceOfDictsWithIds_loop_cons.
    destruct item as [ | | | | |m|] eqn:Hitem; try done.
    destruct (hasIdentifierKey (VMap m)) eqn:Hid.
    + intros _. by exists [], (VMap m), rest.
    + intros (before & item' & after & -> & Hbefore & Hmap & Hid')%IH.
      exists (VMap m :: before), item', after. split_and!; try done.
      constructor; [by split|done].
  - intros (before & item & after & -> & Hbefore & Hmap & Hid).
    rewrite isSliceOfDictsWithIds_loop_app, isSliceOfDictsWithIds_loop_cons by done.
    destruct item; try done. by rewrite Hid.
Qed.

(** X2. The test panics exactly on the slices that begin with mappings
    without identifier key and then have a nil element. *)
Theorem isSliceOfDictsWithIds_panics_iff (slice : list Value) :
  isSliceOfDictsWithIds slice = None ↔
  ∃ before after, slice = before ++ VNil :: after ∧ Forall plainMapping before.
Proof.
  rewrite isSliceOfDictsWithIds_loop_eq. split.
  - induction slice as [|item rest IH]; [done|].
    rewrite isSliceOfDictsWithIds_loop_cons.
    destruct item as [ | | | | |m|] eqn:Hitem; try done.
    + intros _. by exists [], rest.
    + destruct (hasIdentifierKey (VMap m)) eqn:Hid; [done|].
      intros (before & after & -> & Hbefore)%IH.
      exists (VMap m :: before), after. split; [done|].
      constructor; [by split|done].
  - intros (before & after & -> & Hbefore).
    by rewrite isSliceOfDictsWithIds_loop_app.
Qed.

(** X3. On a slice whose elements are all mappings the test does not panic
    and answers whether the slice is not empty and one of the mappings has
    one of the keys [name], [key], [id]. *)
Theorem isSliceOfDictsWithIds_on_mappings (slice : list Value) :
  forallb isMapping slice = true →
  isSliceOfDictsWithIds slice
  = Some (negb (Nat.eqb (length slice) 0) && existsb hasIdentifierKey slice).
Proof.
  intros Hall. rewrite (isSliceOfDictsWithIds_mappings _ Hall).
  unfold identifiableRecordSequence. by rewrite Hall, andb_true_r.
Qed.

(** ** The canonicalizer, further *)


(** X5. On a value none of whose sequences holds a Null element the
    canonicalizer is idempotent: the canonical form is its own canonical
    form. *)
Theorem normalizeValue_idempotent_without_nil (v c : Value) :
  nilFreeSlices v = true → normalizeValue v = Some c → normalizeValue c = Some c.
Proof. apply normalizeValue_idempotent_nilFree. Qed.

(** X6. A second pass of the canonicalizer over a canonical form either
    panics or returns the canonical form unchanged; it never returns
    something else. *)
Theorem normalizeValue_second_pass (v c : Value) :
  normalizeValue v = Some c → normalizeValue c = None ∨ normalizeValue c = Some c.
Proof.
  intros Hc. destruct (normalizeValue c) as [c'|] eqn:Hc'; [|by left].
  right. by rewrite (normalizeValue_idempotent_where_defined _ _ _ Hc Hc').
Qed.



(** X8. The canonical form of a sequence holds the canonical forms of the
    elements: in the order of the input when the test takes them for records,
    and sorted by their [%v] texts otherwise. *)
Theorem normalizeValue_sequence (l : list Value) (c : Value) :
  normalizeValue (VSlice l) = Some c →
  ∃ elements s,
    mapM normalizeValue l = Some elements ∧ c = VSlice s ∧ s ≡ₚ elements
    ∧ ((isSliceOfDictsWithIds elements = Some true ∧ s = elements)
       ∨ (isSliceOfDictsWithIds elements = Some false
          ∧ Sorted (λ a b, (Sprint a ≤ Sprint b)%string) s)).
Proof.
  rewrite normalizeValue_slice.
  destruct (mapM normalizeValue l) as [elements|]; [|done]. cbn [mbind option_bind].
  destruct (isSliceOfDictsWithIds elements) as [[]|] eqn:Hrec; cbn [mbind option_bind];
    [| |done]; intros [= <-].
  - exists elements, elements. split_and!; try done. by left.
  - exists elements, (sortSlice lessByText elements). split_and!; try done.
    + apply sortSlice_Permutation.
    + right. split; [done|]. apply (sortSlice_lessBy_Sorted Sprint).
Qed.

(** X9. The order of the elements of a plain sequence does not matter: two
    sequences with the same elements, which the test does not take for
    records and whose canonical elements have different [%v] texts, have the
    same canonical form. *)
Theorem normalizeValue_order_insensitive (l l' elements elements' : list Value) :
  l ≡ₚ l' →
  mapM normalizeValue l = Some elements →
  mapM normalizeValue l' = Some elements' →
  isSliceOfDictsWithIds elements = Some false →
  isSliceOfDictsWithIds elements' = Some false →
  NoDup (Sprint <$> elements) →
  normalizeValue (VSlice l) = normalizeValue (VSlice l').
Proof.
  intros Hperm Hels Hels' Hrec Hrec' Hdup.
  rewrite !normalizeValue_slice, Hels, Hels'. simpl. rewrite Hrec, Hrec'. simpl.
  do 2 f_equal. apply (sortSlice_lessBy_unique Sprint); [|done].
  pose proof (mapM_Permutation normalizeValue _ _ Hperm) as Hopt.
  rewrite Hels, Hels' in Hopt. by inversion Hopt.
Qed.

(** ** The tree differ, further *)

Lemma KeyVal_inj (a b : Key) : KeyVal a = KeyVal b → a = b.
Proof. destruct a, b; simpl; congruence. Qed.

Lemma normalizeValue_KeyVal (k : Key) : normalizeValue (KeyVal k) = Some (KeyVal k).
Proof. by destruct k. Qed.

Lemma ltb_irrefl (s : string) : String.ltb s s = false.
Proof.
  destruct (String.ltb s s) eqn:Hlt; [|done]. by rewrite (ltb_asym _ _ Hlt) in Hlt.
Qed.

Lemma diffValues_nil_side (v : Value) (path : string) :
  v ≠ VNil →
  diffValues VNil v path = Some [mkChange Addition path VNil v]
  ∧ diffValues v VNil path = Some [mkChange Deletion path v VNil].
Proof.
  intros Hv. rewrite !diffValues_unfold. unfold diffValuesBody.
  assert (DeepEqual VNil v = false) as ->.
  { apply not_true_is_false. by intros ?%DeepEqual_nil_l. }
  assert (DeepEqual v VNil = false) as ->.
  { apply not_true_is_false. by intros ?%DeepEqual_nil_r. }
  assert (bool_decide (v ≠ VNil) = true) as -> by by apply bool_decide_eq_true_2.
  assert (bool_decide (v = VNil) = false) as -> by by apply bool_decide_eq_false_2.
  assert (bool_decide (VNil ≠ VNil) = false) as ->
    by (apply bool_decide_eq_false_2; by intros []).
  assert (bool_decide (VNil = VNil) = true) as -> by by apply bool_decide_eq_true_2.
  by rewrite !andb_false_r.
Qed.

Lemma diffValues_KeyVal_ne (a b : Key) (path : string) :
  a ≠ KNil → b ≠ KNil → a ≠ b →
  diffValues (KeyVal a) (KeyVal b) path
  = Some [mkChange Modification path (KeyVal a) (KeyVal b)].
Proof.
  intros Ha Hb Hab. rewrite diffValues_unfold. unfold diffValuesBody.
  assert (DeepEqual (KeyVal a) (KeyVal b) = false) as ->.
  { rewrite DeepEqual_KeyVal. by apply bool_decide_eq_false_2. }
  destruct a as [ |x|x|x], b as [ |y|y|y]; try done; simpl;
    repeat (first [rewrite bool_decide_eq_true_2 by congruence
                  |rewrite bool_decide_eq_false_2 by (intros ?; congruence)]);
    done.
Qed.

(** X10. An absent (nil) old value against a present new value is one
    [Addition] at the path, carrying the new value; a present old value
    against an absent new one is one [Deletion] carrying the old value.
    Nothing is reported for the children. *)
Theorem diffValues_absent (v : Value) (path : string) :
  v ≠ VNil →
  diffValues VNil v path = Some [mkChange Addition path VNil v]
  ∧ diffValues v VNil path = Some [mkChange Deletion path v VNil].
Proof. apply diffValues_nil_side. Qed.

(** X11. Two different scalars, of one type or of two, are one
    [Modification] at the path, carrying both. *)
Theorem diffValues_scalars (a b : Key) (path : string) :
  a ≠ KNil → b ≠ KNil → a ≠ b →
  diffValues (KeyVal a) (KeyVal b) path
  = Some [mkChange Modification path (KeyVal a) (KeyVal b)].
Proof. apply diffValues_KeyVal_ne. Qed.

(** X12. Elements of equal text are not brought into one order: a sequence
    of two different scalars with the same [%v] text (the text [1] and the
    number 1, say) is its own canonical form, whichever comes first, so the
    two orders have different canonical forms and diff to two
    modifications. *)
Theorem normalizeValue_equal_texts (a b : Key) :
  a ≠ KNil → b ≠ KNil → a ≠ b → SprintKey a = SprintKey b →
  normalizeValue (VSlice [KeyVal a; KeyVal b]) = Some (VSlice [KeyVal a; KeyVal b])
  ∧ normalizeValue (VSlice [KeyVal b; KeyVal a]) = Some (VSlice [KeyVal b; KeyVal a])
  ∧ diffValues (VSlice [KeyVal a; KeyVal b]) (VSlice [KeyVal b; KeyVal a]) ""
    = Some [mkChange Modification "[0]" (KeyVal a) (KeyVal b);
            mkChange Modification "[1]" (KeyVal b) (KeyVal a)].
Proof.
  intros Ha Hb Hab Htext.
  assert (∀ x y : Key, x ≠ KNil → SprintKey x = SprintKey y →
            normalizeValue (VSlice [KeyVal x; KeyVal y]) = Some (VSlice [KeyVal x; KeyVal y]))
    as Hnorm.
  { intros x y Hx Hxy. rewrite normalizeValue_slice, !mapM_cons, !normalizeValue_KeyVal.
    cbn [mapM mbind option_bind mret option_ret].
    assert (isSliceOfDictsWithIds [KeyVal x; KeyVal y] = Some false) as ->
      by by destruct x.
    cbn [mbind option_bind]. unfold sortSlice. cbn [foldl sinkLeft].
    unfold lessByText. by rewrite <- !Sprint_KeyVal in Hxy; rewrite Hxy, ltb_irrefl. }
  split_and!; [by apply Hnorm|by apply Hnorm|].
  rewrite diffValues_positional by by destruct a.
  cbn [length Nat.min seq mapM Nat.sub fmap list_fmap lookup_total list_lookup_total].
  rewrite !diffValues_KeyVal_ne by done. done.
Qed.

(** ** What every change looks like *)

Lemma String_app_assoc (s1 s2 s3 : string) : (s1 +:+ s2) +:+ s3 = s1 +:+ (s2 +:+ s3).
Proof.
  induction s1 as [|c s1 IH]; [done|].
  change (String.String c ((s1 +:+ s2) +:+ s3) = String.String c (s1 +:+ (s2 +:+ s3))).
  by rewrite IH.
Qed.

Lemma String_app_nil_r (s : string) : s +:+ "" = s.
Proof.
  induction s as [|c s IH]; [done|].
  change (String.String c (s +:+ "") = String.String c s). by rewrite IH.
Qed.

Lemma pathUnder_here (path : string) (c : Change) : Path c = path → pathUnder path c.
Proof. intros <-. exists "". by rewrite String_app_nil_r. Qed.

Lemma pathUnder_step (path step : string) (c : Change) :
  pathUnder (path +:+ step) c → pathUnder path c.
Proof.
  intros [suffix Hc]. exists (step +:+ suffix). by rewrite Hc, String_app_assoc.
Qed.

Lemma mapM_concat_Forall {A B} (Q : B → Prop) (f : A → option (list B)) (l : list A) found :
  mapM f l = Some found →
  (∀ x y, x ∈ l → f x = Some y → Forall Q y) →
  Forall Q (concat found).
Proof.
  intros Hfound%mapM_Some_1 Hall. induction Hfound as [|x y l found Hxy _ IH]; [done|].
  simpl. apply Forall_app. split.
  - eapply Hall; [by left|done].
  - apply IH. intros x' y' Hx'. apply Hall. by right.
Qed.

Lemma Forall_omap_intro {A B} (Q : B → Prop) (f : A → option B) (l : list A) :
  (∀ x y, x ∈ l → f x = Some y → Q y) → Forall Q (omap f l).
Proof.
  intros Hall. apply Forall_forall. intros y (x & Hx & Hfx)%list_elem_of_omap. eauto.
Qed.

Section invariant.
(** A property of changes under a path that holds for the changes the
    differ makes itself and is kept when the path is that of a parent. *)
Variable Q : string → Change → Prop.
Hypothesis Q_step : ∀ path step c, Q (path +:+ step) c → Q path c.
Hypothesis Q_addition : ∀ path v, Q path (mkChange Addition path VNil v).
Hypothesis Q_deletion : ∀ path v, Q path (mkChange Deletion path v VNil).
Hypothesis Q_modification : ∀ path o n,
  o ≠ VNil → n ≠ VNil → DeepEqual o n = false → Q path (mkChange Modification path o n).

Lemma diffPositional_Forall (oldSlice newSlice : list Value) (path : string) (i : nat) changes :
  Forall (λ o, ∀ n p cs, diffValues o n p = Some cs → Forall (Q p) cs) oldSlice →
  diffPositional diffValues oldSlice newSlice path i = Some changes →
  Forall (Q path) changes.
Proof using Q_step Q_addition Q_deletion.
  intros IH. revert newSlice i changes.
  induction IH as [|o oldRest Ho _ IHrest]; intros [|n newRest] i changes.
  - by intros [= <-].
  - cbn [diffPositional]. intros Heq%(inj Some). subst changes. apply Forall_forall.
    intros c (j & v & -> & _)%elem_of_lookup_imap. apply (Q_step _ _ _ (Q_addition _ _)).
  - cbn [diffPositional]. intros Heq%(inj Some). subst changes. apply Forall_forall.
    intros c (j & v & -> & _)%elem_of_lookup_imap. apply (Q_step _ _ _ (Q_deletion _ _)).
  - cbn [diffPositional].
    destruct (diffValues o n _) as [sub|] eqn:Hsub; [|done]. cbn [mbind option_bind].
    destruct (diffPositional _ _ _ _ _) as [rest|] eqn:Hrest; [|done]. intros [= <-].
    apply Forall_app. split; [|by eapply IHrest].
    eapply Forall_impl; [by eapply Ho|]. intros c. apply Q_step.
Qed.

Lemma diffValues_Forall (oldVal : Value) :
  ∀ newVal path changes,
    diffValues oldVal newVal path = Some changes → Forall (Q path) changes.
Proof using Q_step Q_addition Q_deletion Q_modification.
  induction oldVal as [ | | | | |oldMap IH|oldSlice IH] using Value_ind;
    intros newVal path changes; rewrite diffValues_unfold; unfold diffValuesBody;
    (destruct (DeepEqual _ newVal) eqn:Heq; [by intros [= <-]|]);
    repeat case_bool_decide; simpl;
    try (intros [= <-]; repeat constructor; by auto);
    try done.
  - destruct newVal as [ | | | | |newMap|]; try done.
    rewrite diffMaps_mapM.
    destruct (mapM _ (map_to_list oldMap)) as [found|] eqn:Hfound; [|done].
    intros [= <-]. apply Forall_app. split.
    + eapply mapM_concat_Forall; [done|].
      intros [key oldValue] cs Hin%elem_of_map_to_list. cbn beta iota.
      destruct (newMap !! key) as [newValue|].
      * intros Hcs. eapply Forall_impl; [by eapply (IH key oldValue Hin)|].
        intros c. apply Q_step.
      * intros [= <-]. repeat constructor. apply (Q_step _ _ _ (Q_deletion _ _)).
    + apply Forall_omap_intro. intros [key newValue] c _.
      destruct (oldMap !! key); [done|]. intros [= <-].
      apply (Q_step _ _ _ (Q_addition _ _)).
  - destruct newVal as [ | | | | | |newSlice]; try done.
    destruct (bothSlicesOfDictsWithIds oldSlice newSlice) as [[]|]; [| |done];
      cbn [mbind option_bind].
    + unfold diffSliceOfDictsWith.
      destruct (mapM _ (map_to_list (groupByIdentifier oldSlice))) as [found|] eqn:Hfound;
        [|done].
      intros [= <-]. apply Forall_app. split.
      * eapply mapM_concat_Forall; [done|].
        intros [key oldItem] cs [Hin _]%elem_of_map_to_list%groupByIdentifier_lookup.
        cbn beta iota. destruct (groupByIdentifier newSlice !! key) as [newItem|].
        -- intros Hcs. rewrite Forall_forall in IH.
           eapply Forall_impl; [by eapply (IH oldItem Hin)|]. intros c. apply Q_step.
        -- intros [= <-]. repeat constructor. apply (Q_step _ _ _ (Q_deletion _ _)).
      * apply Forall_omap_intro. intros [key newItem] c _.
        destruct (groupByIdentifier oldSlice !! key); [done|]. intros [= <-].
        apply (Q_step _ _ _ (Q_addition _ _)).
    + by apply diffPositional_Forall.
Qed.
End invariant.

(** X13. Every change that the differ reports has the given path or a path
    that leads on from it: nothing is reported outside the subtree that is
    compared. *)
Theorem diffValues_paths (oldVal newVal : Value) (path : string) (changes : list Change) :
  diffValues oldVal newVal path = Some changes → Forall (pathUnder path) changes.
Proof.
  apply (diffValues_Forall pathUnder).
  - intros p step c. apply pathUnder_step.
  - intros p v. by apply pathUnder_here.
  - intros p v. by apply pathUnder_here.
  - intros p o n _ _ _. by apply pathUnder_here.
Qed.

(** X14. Every change that the differ reports is well formed: an [Addition]
    carries no old value, a [Deletion] no new value, and a [Modification]
    carries two present values that are not deeply equal
    ([reflect.DeepEqual]); unless the old one holds a NaN, they are two
    different values. *)
Theorem diffValues_shapes (oldVal newVal : Value) (path : string) (changes : list Change) :
  diffValues oldVal newVal path = Some changes → Forall changeShape changes.
Proof.
  apply (diffValues_Forall (λ _, changeShape)); try done.
  intros p o n Ho Hn Hon. split_and!; try done.
  simpl. intros Hfree <-. by rewrite DeepEqual_refl in Hon.
Qed.

(** ** The differ returns on documents without Null elements *)

Lemma nilFreeSlices_not_panics (l : list Value) :
  nilFreeSlices (VSlice l) = true → is_Some (isSliceOfDictsWithIds l).
Proof.
  intros Hfree%nilFreeSlices_VSlice.
  destruct (isSliceOfDictsWithIds l) eqn:Hrec; [by eexists|].
  apply isSliceOfDictsWithIds_None in Hrec. rewrite Forall_forall in Hfree.
  by destruct (Hfree _ Hrec).
Qed.

Lemma mapM_is_Some_elem {A B} (f : A → option B) (l : list A) :
  (∀ x, x ∈ l → is_Some (f x)) → is_Some (mapM f l).
Proof. intros Hall. apply mapM_is_Some, Forall_forall. intros x Hx. by apply Hall. Qed.

Lemma diffPositional_is_Some (oldSlice newSlice : list Value) (path : string) (i : nat) :
  Forall (λ o, ∀ n p, nilFreeSlices n = true → is_Some (diffValues o n p)) oldSlice →
  Forall (λ n, nilFreeSlices n = true) newSlice →
  is_Some (diffPositional diffValues oldSlice newSlice path i).
Proof.
  intros IH. revert newSlice i.
  induction IH as [|o oldRest Ho _ IHrest]; intros [|n newRest] i Hnew; try by eexists.
  apply Forall_cons in Hnew as [Hn Hnew]. cbn [diffPositional].
  destruct (Ho n (path +:+ "[" +:+ Itoa (Z.of_nat i) +:+ "]") Hn) as [sub ->].
  destruct (IHrest newRest (S i) Hnew) as [rest ->]. by eexists.
Qed.

(** X15. On two documents none of whose sequences holds a Null element the
    differ returns: it does not panic. *)
Theorem diffValues_returns_without_nil (oldVal newVal : Value) (path : string) :
  nilFreeSlices oldVal = true → nilFreeSlices newVal = true →
  is_Some (diffValues oldVal newVal path).
Proof.
  revert newVal path.
  induction oldVal as [ | | | | |oldMap IH|oldSlice IH] using Value_ind;
    intros newVal path Hold Hnew; rewrite diffValues_unfold; unfold diffValuesBody;
    (destruct (DeepEqual _ newVal) eqn:Heq; [by eexists|]);
    repeat case_bool_decide; simpl; try done; try (by eexists); try (by subst).
  - destruct newVal as [ | | | | |newMap|]; try done.
    rewrite diffMaps_mapM.
    destruct (mapM_is_Some_elem
      (λ '(key, oldValue),
         match newMap !! key with
         | None => Some [mkChange Deletion (path +:+ "." +:+ SprintKey key) oldValue VNil]
         | Some newValue => diffValues oldValue newValue (path +:+ "." +:+ SprintKey key)
         end) (map_to_list oldMap)) as [found ->]; [|by eexists].
    intros [key oldValue] Hin%elem_of_map_to_list.
    destruct (newMap !! key) as [newValue|] eqn:Hkey; [|by eexists].
    apply (IH key oldValue Hin);
      [exact (nilFreeSlices_map _ _ _ Hold Hin)|exact (nilFreeSlices_map _ _ _ Hnew Hkey)].
  - destruct newVal as [ | | | | | |newSlice]; try done.
    destruct (nilFreeSlices_not_panics _ Hold) as [isOld HisOld].
    destruct (nilFreeSlices_not_panics _ Hnew) as [isNew HisNew].
    apply nilFreeSlices_VSlice in Hold, Hnew.
    unfold bothSlicesOfDictsWithIds. rewrite HisOld. cbn [mbind option_bind].
    assert (is_Some (diffPositional diffValues oldSlice newSlice path 0)) as Hpos.
    { apply diffPositional_is_Some.
      - rewrite Forall_forall in IH, Hold. apply Forall_forall. intros o Ho n p Hn.
        apply (IH o Ho); [|done]. by destruct (Hold o Ho).
      - eapply Forall_impl; [done|]. by intros n [_ ?]. }
    destruct isOld; [|done]. rewrite HisNew. cbn [mbind option_bind].
    destruct isNew; [|done]. unfold diffSliceOfDictsWith.
    destruct (mapM_is_Some_elem
      (λ '(key, oldItem),
         match groupByIdentifier newSlice !! key with
         | Some newItem => diffValues oldItem newItem (path +:+ "[" +:+ key +:+ "]")
         | None => Some [mkChange Deletion (path +:+ "[" +:+ key +:+ "]") oldItem VNil]
         end) (map_to_list (groupByIdentifier oldSlice))) as [found ->]; [|by eexists].
    intros [key oldItem] [Hin _]%elem_of_map_to_list%groupByIdentifier_lookup.
    destruct (groupByIdentifier newSlice !! key) as [newItem|] eqn:Hkey; [|by eexists].
    apply groupByIdentifier_lookup in Hkey as [Hnin _].
    rewrite Forall_forall in IH, Hold, Hnew.
    apply (IH oldItem Hin); [by destruct (Hold _ Hin)|by destruct (Hnew _ Hnin)].
Qed.

(** ** The differ misses nothing in documents without records *)

Lemma plainSlices_map (m : gmap Key Value) k x :
  plainSlices (VMap m) = true → m !! k = Some x → plainSlices x = true.
Proof.
  simpl. rewrite map_fold_foldr. intros Hall Hk%elem_of_map_to_list.
  induction (map_to_list m) as [|[k' y] l IH]; [by apply elem_of_nil in Hk|].
  simpl in Hall. apply andb_true_iff in Hall as [Hy Hall].
  apply elem_of_cons in Hk as [[= <- <-]|Hk]; auto.
Qed.

Lemma plainSlices_slice (l : list Value) :
  plainSlices (VSlice l) = true →
  isSliceOfDictsWithIds l = Some false ∧ Forall (λ x, plainSlices x = true) l.
Proof.
  simpl. intros [Hrec Hall]%andb_true_iff. split; [by apply bool_decide_eq_true in Hrec|].
  apply Forall_forall. intros x Hx%list_elem_of_In. by eapply forallb_forall.
Qed.

Lemma mapM_concat_nil {A B} (f : A → option (list B)) (l : list A) found x :
  mapM f l = Some found → concat found = [] → x ∈ l → f x = Some [].
Proof.
  intros Hfound%mapM_Some_1. induction Hfound as [|z y l found Hzy _ IH]; [by intros _ ?%elem_of_nil|].
  simpl. intros [-> Hrest]%app_nil [->|Hx]%elem_of_cons; auto.
Qed.

Lemma omap_nil_elem {A B} (f : A → option B) (l : list A) x :
  omap f l = [] → x ∈ l → f x = None.
Proof.
  intros Hnil Hx. destruct (f x) as [y|] eqn:Hfx; [|done].
  assert (y ∈ omap f l) as Hy by (apply list_elem_of_omap; eauto).
  rewrite Hnil in Hy. by apply elem_of_nil in Hy.
Qed.

Lemma diffPositional_nil (oldSlice newSlice : list Value) (path : string) (i : nat) :
  Forall (λ o, ∀ n p, diffValues o n p = Some [] → DeepEqual o n = true) oldSlice →
  diffPositional diffValues oldSlice newSlice path i = Some [] →
  Forall2 (λ o n, DeepEqual o n = true) oldSlice newSlice.
Proof.
  intros IH. revert newSlice i.
  induction IH as [|o oldRest Ho _ IHrest]; intros [|n newRest] i; try done.
  cbn [diffPositional].
  destruct (diffValues o n _) as [sub|] eqn:Hsub; [|done]. cbn [mbind option_bind].
  destruct (diffPositional _ _ _ _ _) as [rest|] eqn:Hrest; [|done].
  intros [= [-> ->]%app_nil]. constructor; [by eapply Ho|by eapply IHrest].
Qed.

(** X16. In a document none of whose sequences is taken for records the
    differ misses nothing: when it reports no change against another
    document, the two documents are deeply equal ([reflect.DeepEqual]);
    unless the old one holds a float zero, they are the same document. *)
Theorem diffValues_no_change_plain (oldVal newVal : Value) (path : string) :
  plainSlices oldVal = true →
  diffValues oldVal newVal path = Some [] →
  DeepEqual oldVal newVal = true ∧ (zeroFree oldVal = true → oldVal = newVal).
Proof.
  intros Hplain Hdiff.
  assert (DeepEqual oldVal newVal = true) as Heq;
    [|split; [done|intros Hfree; by apply DeepEqual_eq]].
  revert newVal path Hplain Hdiff.
  induction oldVal as [ | | | | |oldMap IH|oldSlice IH] using Value_ind;
    intros newVal path Hplain Hdiff;
    (destruct (DeepEqual _ newVal) eqn:Heq; [done|]); exfalso;
    rewrite diffValues_unfold in Hdiff; unfold diffValuesBody in Hdiff;
    rewrite Heq in Hdiff; repeat case_bool_decide; simpl in Hdiff; try done.
  - destruct newVal as [ | | | | |newMap|]; try done.
    rewrite diffMaps_mapM in Hdiff.
    destruct (mapM _ (map_to_list oldMap)) as [found|] eqn:Hfound; [|done].
    injection Hdiff as [Hnil Hadd]%app_nil.
    assert (DeepEqual (VMap oldMap) (VMap newMap) = true) as Htrue; [|congruence].
    apply DeepEqual_VMap_intro. intros k. destruct (oldMap !! k) as [x|] eqn:Hk.
    + pose proof (mapM_concat_nil _ _ _ (k, x) Hfound Hnil) as Hkx.
      cbn beta iota in Hkx. rewrite elem_of_map_to_list in Hkx. specialize (Hkx Hk).
      destruct (newMap !! k) as [y|]; [|done].
      eapply (IH k x Hk); [|done]. by eapply plainSlices_map.
    + destruct (newMap !! k) as [y|] eqn:Hk'; [|done].
      pose proof (omap_nil_elem _ _ (k, y) Hadd) as Hky.
      cbn beta iota in Hky. rewrite elem_of_map_to_list, Hk in Hky. by specialize (Hky Hk').
  - destruct newVal as [ | | | | | |newSlice]; try done.
    apply plainSlices_slice in Hplain as [Hrec Hall].
    unfold bothSlicesOfDictsWithIds in Hdiff. rewrite Hrec in Hdiff.
    cbn [mbind option_bind] in Hdiff.
    assert (DeepEqual (VSlice oldSlice) (VSlice newSlice) = true) as Htrue; [|congruence].
    apply DeepEqual_VSlice. eapply diffPositional_nil; [|done].
    rewrite Forall_forall in IH, Hall. apply Forall_forall. intros o Ho n p Hn.
    exact (IH o Ho n p (Hall o Ho) Hn).
Qed.

(** ** The mapping case of the differ *)

Section keyed.
Context `{Countable K}.
Variables oldMap newMap : gmap K Value.

Lemma keyed_zip :
  omap (λ e, (λ newValue, (e.1, (e.2, newValue))) <$> newMap !! e.1) (map_to_list oldMap)
  ≡ₚ map_to_list (map_zip oldMap newMap).
Proof.
  apply NoDup_Permutation.
  - apply NoDup_omap; [|apply NoDup_map_to_list].
    intros [k1 o1] [k2 o2] z. simpl.
    destruct (newMap !! k1), (newMap !! k2); simpl; congruence.
  - apply NoDup_map_to_list.
  - intros [key [oldValue newValue]].
    rewrite list_elem_of_omap, elem_of_map_to_list, map_lookup_zip_Some. simpl. split.
    + intros ([k o] & Hin%elem_of_map_to_list & Hn). simpl in Hn.
      destruct (newMap !! k) eqn:Hk; simplify_eq/=. done.
    + intros [Ho Hn]. exists (key, oldValue). rewrite elem_of_map_to_list.
      split; [done|]. simpl. by rewrite Hn.
Qed.

Section keyed_changes.
Variable change : K → Value → Change.

Lemma keyed_additions :
  omap (λ '(key, newValue),
          match oldMap !! key with
          | Some _ => None
          | None => Some (change key newValue)
          end) (map_to_list newMap)
  ≡ₚ (λ e, change e.1 e.2) <$> map_to_list (newMap ∖ oldMap).
Proof.
  erewrite (omap_filter_fmap (λ e, oldMap !! e.1 = None) _ (λ e, change e.1 e.2)); last first.
  { intros [key newValue]. simpl. by destruct (oldMap !! key). }
  apply fmap_Permutation, NoDup_Permutation.
  - apply NoDup_filter, NoDup_map_to_list.
  - apply NoDup_map_to_list.
  - intros [key item]. rewrite list_elem_of_filter, !elem_of_map_to_list.
    rewrite lookup_difference_Some. simpl. tauto.
Qed.

Lemma keyed_deletions :
  (λ e, change e.1 e.2) <$> filter (λ e, newMap !! e.1 = None) (map_to_list oldMap)
  ≡ₚ (λ e, change e.1 e.2) <$> map_to_list (oldMap ∖ newMap).
Proof.
  apply fmap_Permutation, NoDup_Permutation.
  - apply NoDup_filter, NoDup_map_to_list.
  - apply NoDup_map_to_list.
  - intros [key item]. rewrite list_elem_of_filter, !elem_of_map_to_list.
    rewrite lookup_difference_Some. simpl. tauto.
Qed.

End keyed_changes.

Variable deletion : K → Value → Change.
Variable sub : K → Value → Value → option (list Change).

Lemma keyed_found (entries : list (K * Value)) :
  match mapM (λ e, sub e.1 e.2.1 e.2.2)
             (omap (λ e, (λ newValue, (e.1, (e.2, newValue))) <$> newMap !! e.1) entries) with
  | Some subs =>
      ∃ found,
        mapM (λ '(key, oldValue),
                match newMap !! key with
                | Some newValue => sub key oldValue newValue
                | None => Some [deletion key oldValue]
                end) entries = Some found
        ∧ concat found
          ≡ₚ concat subs
             ++ ((λ e, deletion e.1 e.2) <$> filter (λ e, newMap !! e.1 = None) entries)
  | None =>
      mapM (λ '(key, oldValue),
              match newMap !! key with
              | Some newValue => sub key oldValue newValue
              | None => Some [deletion key oldValue]
              end) entries = None
  end.
Proof.
  induction entries as [|[key oldValue] entries IH]; [by exists []|].
  rewrite filter_cons, mapM_cons. cbn beta iota. cbn [omap list_omap fst snd].
  destruct (newMap !! key) as [newValue|] eqn:Hkey.
  - rewrite decide_False by done. cbn [fmap option_fmap option_map].
    rewrite mapM_cons. cbn [fst snd].
    destruct (sub key oldValue newValue) as [changes|]; cbn [mbind option_bind]; [|done].
    destruct (mapM _ (omap _ _)) as [subs|]; cbn [mbind option_bind].
    + destruct IH as (found & -> & Hperm). eexists; split; [done|].
      cbn [concat]. by rewrite Hperm, app_assoc.
    + by rewrite IH.
  - rewrite decide_True by done. cbn [fmap option_fmap option_map mbind option_bind].
    destruct (mapM _ (omap _ _)) as [subs|].
    + destruct IH as (found & -> & Hperm). eexists; split; [done|].
      cbn [concat]. rewrite Hperm, fmap_cons. by rewrite <- Permutation_middle.
    + by rewrite IH.
Qed.
End keyed.

Lemma mapM_all_nil {A B} (f : A → option (list B)) (l : list A) :
  (∀ x, x ∈ l → f x = Some []) → ∃ found, mapM f l = Some found ∧ concat found = [].
Proof.
  induction l as [|x l IH]; intros Hall; [by exists []|].
  destruct IH as (found & Hfound & Hnil); [intros y Hy; apply Hall; by right|].
  exists ([] :: found). rewrite mapM_cons, (Hall x) by by left. by rewrite Hfound.
Qed.

(** X17. Two mappings. The changes are, up to the order in which Go ranges
    over the maps: for every key of both the recursive diff of the two values
    at [path.key], for every key only the old mapping has one [Deletion] at
    [path.key] carrying the old value, for every key only the new mapping has
    one [Addition] at [path.key] carrying the new value. The differ panics
    exactly when one of the recursive diffs does. *)
Theorem diffValues_mappings (oldMap newMap : gmap Key Value) (path : string) :
  match mapM (λ e, diffValues e.2.1 e.2.2 (path +:+ "." +:+ SprintKey e.1))
             (map_to_list (map_zip oldMap newMap)) with
  | Some subs =>
      ∃ changes,
        diffValues (VMap oldMap) (VMap newMap) path = Some changes
        ∧ changes
          ≡ₚ concat subs
             ++ ((λ e, mkChange Deletion (path +:+ "." +:+ SprintKey e.1) e.2 VNil)
                   <$> map_to_list (oldMap ∖ newMap))
             ++ ((λ e, mkChange Addition (path +:+ "." +:+ SprintKey e.1) VNil e.2)
                   <$> map_to_list (newMap ∖ oldMap))
  | None => diffValues (VMap oldMap) (VMap newMap) path = None
  end.
Proof.
  destruct (DeepEqual (VMap oldMap) (VMap newMap)) eqn:Heq.
  - pose proof (λ key, DeepEqual_VMap_lookup _ _ key Heq) as Hlook.
    destruct (mapM_all_nil
      (λ e : Key * (Value * Value), diffValues e.2.1 e.2.2 (path +:+ "." +:+ SprintKey e.1))
      (map_to_list (map_zip oldMap newMap))) as (subs & -> & Hnil).
    { intros [key [x y]] [Hx Hy]%elem_of_map_to_list%map_lookup_zip_Some.
      simpl in *. specialize (Hlook key). rewrite Hx, Hy in Hlook.
      by apply diffValues_DeepEqual. }
    exists []. split; [by apply diffValues_DeepEqual|].
    assert (oldMap ∖ newMap = ∅) as ->.
    { apply map_empty. intros key. apply lookup_difference_None. specialize (Hlook key).
      destruct (oldMap !! key), (newMap !! key); try done; [right; by eexists|by left]. }
    assert (newMap ∖ oldMap = ∅) as ->.
    { apply map_empty. intros key. apply lookup_difference_None. specialize (Hlook key).
      destruct (oldMap !! key), (newMap !! key); try done; [right; by eexists|by left]. }
    by rewrite Hnil, map_to_list_empty.
  - assert (diffValues (VMap oldMap) (VMap newMap) path
            = diffMaps diffValues oldMap newMap path) as ->.
    { rewrite diffValues_unfold. unfold diffValuesBody. by rewrite Heq. }
    rewrite diffMaps_mapM.
    pose proof (keyed_found newMap
      (λ key oldValue, mkChange Deletion (path +:+ "." +:+ SprintKey key) oldValue VNil)
      (λ key oldValue newValue, diffValues oldValue newValue (path +:+ "." +:+ SprintKey key))
      (map_to_list oldMap)) as Hfound.
    cbn beta in Hfound.
    pose proof (mapM_Permutation
      (λ e : Key * (Value * Value), diffValues e.2.1 e.2.2 (path +:+ "." +:+ SprintKey e.1))
      _ _ (keyed_zip oldMap newMap)) as Hperm.
    inversion Hperm as [subs' subs Hsubs Heq1 Heq2|Heq1 Heq2];
      rewrite <- Heq1 in Hfound.
    + destruct Hfound as (found & Hfound & Hconcat). eexists.
      split; [by erewrite Hfound|].
      rewrite Hconcat, Hsubs.
      rewrite (keyed_deletions oldMap newMap
        (λ key oldValue, mkChange Deletion (path +:+ "." +:+ SprintKey key) oldValue VNil)).
      rewrite (keyed_additions oldMap newMap
        (λ key newValue, mkChange Addition (path +:+ "." +:+ SprintKey key) VNil newValue)).
      by rewrite app_assoc.
    + by erewrite Hfound.
Qed.

(** ** The order of records, and of changes *)

Lemma NoDup_omap_elem_inj {A B} (f : A → option B) (l : list A) x y z :
  NoDup (omap f l) → x ∈ l → y ∈ l → f x = Some z → f y = Some z → x = y.
Proof.
  induction l as [|w l IH]; [by intros _ ?%elem_of_nil|].
  cbn [omap list_omap]. intros Hdup Hx Hy Hfx Hfy.
  apply elem_of_cons in Hx as [->|Hx]; apply elem_of_cons in Hy as [->|Hy]; auto.
  - rewrite Hfx in Hdup. apply NoDup_cons in Hdup as [Hz _].
    destruct Hz. apply list_elem_of_omap. eauto.
  - rewrite Hfy in Hdup. apply NoDup_cons in Hdup as [Hz _].
    destruct Hz. apply list_elem_of_omap. eauto.
  - destruct (f w); [apply NoDup_cons in Hdup as [_ Hdup]|]; eauto.
Qed.

(** With identifiers that are all different, the lookup map files every
    element under its identifier. *)
Lemma groupByIdentifier_unique (slice : list Value) item key :
  NoDup (omap identifier slice) → item ∈ slice → identifier item = Some key →
  groupByIdentifier slice !! key = Some item.
Proof.
  intros Hdup Hin Hitem.
  destruct (groupByIdentifier_is_Some _ _ _ Hin Hitem) as [item' Hitem'].
  rewrite Hitem'. f_equal.
  apply groupByIdentifier_lookup in Hitem' as [Hin' Hid'].
  by eapply (NoDup_omap_elem_inj identifier).
Qed.

Lemma groupByIdentifier_Permutation (slice slice' : list Value) :
  slice ≡ₚ slice' → NoDup (omap identifier slice) →
  groupByIdentifier slice = groupByIdentifier slice'.
Proof.
  intros Hperm Hdup.
  assert (NoDup (omap identifier slice')) as Hdup'.
  { by rewrite <- (omap_Permutation identifier _ _ Hperm). }
  apply map_eq. intros key.
  destruct (groupByIdentifier slice !! key) as [item|] eqn:Hkey.
  - apply groupByIdentifier_lookup in Hkey as [Hin Hid]. symmetry.
    apply groupByIdentifier_unique; [done| |done]. by rewrite <- Hperm.
  - destruct (groupByIdentifier slice' !! key) as [item|] eqn:Hkey'; [|done].
    apply groupByIdentifier_lookup in Hkey' as [Hin Hid]. rewrite <- Hperm in Hin.
    destruct (groupByIdentifier_is_Some _ _ _ Hin Hid) as [? ?]. congruence.
Qed.

(** X18. The order of records does not matter to the record matcher: when
    the identifiers within the old slice are all different, and so are those
    within the new slice, reordering the elements of either slice leaves the
    changes as they are (in Go: up to the order in which it ranges over the
    lookup maps). *)
Theorem diffSliceOfDicts_order_insensitive (oldSlice oldSlice' newSlice newSlice' : list Value)
    (path : string) :
  oldSlice ≡ₚ oldSlice' → newSlice ≡ₚ newSlice' →
  NoDup (omap identifier oldSlice) → NoDup (omap identifier newSlice) →
  diffSliceOfDicts oldSlice newSlice path = diffSliceOfDicts oldSlice' newSlice' path.
Proof.
  intros Hold Hnew Hdold Hdnew. unfold diffSliceOfDicts, diffSliceOfDictsWith.
  by rewrite (groupByIdentifier_Permutation _ _ Hold Hdold),
    (groupByIdentifier_Permutation _ _ Hnew Hdnew).
Qed.

Section renderer_order.
Variables red green yellow : string → string.
Variable yamlEncode : Value → option string.

(** X19. The rendering does not depend on the order in which the changes
    were found: two collections with the same changes, all of different
    paths, give the same text (and are left in the same order). *)
Theorem generateColoredDiff_order_independent (changes changes' : list Change) :
  changes ≡ₚ changes' → NoDup (Path <$> changes) →
  generateColoredDiff red green yellow yamlEncode changes
  = generateColoredDiff red green yellow yamlEncode changes'.
Proof.
  intros Hperm Hdup. unfold generateColoredDiff.
  rewrite <- (Permutation_length Hperm).
  destruct (Nat.eqb (length changes) 0) eqn:Hlen.
  - apply Nat.eqb_eq, nil_length_inv in Hlen. subst.
    by apply Permutation_nil in Hperm as ->.
  - cbv zeta. by rewrite (sortSlice_lessBy_unique Path _ _ Hperm Hdup : sortSlice lessByPath _ = _).
Qed.
End renderer_order.

(** ** extractComments *)

Section extractComments_facts.
Variable TrimSpace : string → string.

Lemma markComment_HasPrefix (line : string) : HasPrefix (markComment line) "#" = true.
Proof.
  unfold markComment. destruct (HasPrefix line "#") eqn:Hline; [done|].
  simpl. unfold HasPrefix. by destruct line.
Qed.

Lemma commentLines_HasPrefix (comment : string) :
  Forall (λ line, HasPrefix line "#" = true) (commentLines TrimSpace comment).
Proof.
  unfold commentLines. case_bool_decide; [|done].
  apply Forall_omap_intro. intros line marked _. cbv zeta.
  case_bool_decide; [|done]. intros [= <-]. apply markComment_HasPrefix.
Qed.

(** X20. Every comment that [extractComments] returns begins with the
    comment marker [#] (so none is empty), whatever the comments of the nodes
    are. *)
Theorem extractComments_HasPrefix (node : Node) :
  Forall (λ line, HasPrefix line "#" = true) (extractComments TrimSpace node).
Proof.
  revert node. fix IH 1. intros [head line foot content]. cbn [extractComments].
  repeat (apply Forall_app; split).
  - apply commentLines_HasPrefix.
  - case_bool_decide; [|done]. repeat constructor. apply markComment_HasPrefix.
  - apply commentLines_HasPrefix.
  - induction content as [|child content IHcontent]; [done|].
    rewrite fmap_cons. cbn [concat]. apply Forall_app. split; [apply IH|apply IHcontent].
Qed.
End extractComments_facts.

(** ** The comparison loop of main *)

Lemma concat_replicate_empty (n : nat) : String.concat "" (replicate n "") = "".
Proof. induction n as [|[|n] IH]; [done..|]. exact IH. Qed.

Lemma mapM_const {A B} (f : A → option B) (y : B) (l : list A) :
  (∀ x, x ∈ l → f x = Some y) → mapM f l = Some (replicate (length l) y).
Proof.
  induction l as [|x l IH]; intros Hall; [done|].
  rewrite mapM_cons, Hall by by left. rewrite IH; [done|]. intros z Hz. apply Hall. by right.
Qed.

Section main_facts.
Variables red green yellow : string → string.
Variable yamlEncode : Value → option string.
Variables bluePrintln bluePrintf : string → string.
Variables disableComments noDocComment : bool.

(** X21. Two files with as many documents, whose data are deeply equal one
    by one ([reflect.DeepEqual]), make the loop write nothing at all: no
    header, no comment, and not the line [No changes found.] either. The
    comments of the documents do not matter. *)
Theorem compareDocuments_same_data (documents1 documents2 : list YAMLDocument) :
  Forall2 (λ doc1 doc2, DeepEqual (Data doc1) (Data doc2) = true) documents1 documents2 →
  compareDocuments red green yellow yamlEncode bluePrintln bluePrintf
    disableComments noDocComment documents1 documents2 = Some "".
Proof.
  intros Hdata. unfold compareDocuments.
  rewrite (mapM_const _ "").
  - cbn [mbind option_bind]. by rewrite concat_replicate_empty.
  - intros i _. unfold compareDocument.
    destruct (bool_decide _ && bool_decide _); [done|].
    assert (DeepEqual (from_option Data VNil (documents1 !! i))
                      (from_option Data VNil (documents2 !! i)) = true) as Heq.
    { destruct (documents1 !! i) as [doc1|] eqn:H1.
      - destruct (Forall2_lookup_l _ _ _ _ _ Hdata H1) as (doc2 & -> & Heq). done.
      - apply lookup_ge_None in H1. rewrite (Forall2_length _ _ _ Hdata) in H1.
        apply lookup_ge_None in H1. by rewrite H1. }
    by rewrite (diffValues_DeepEqual _ _ _ Heq).
Qed.

(** X22. A document that only the second file has, and that is not null, is
    written as one addition of the whole document at the root path, under
    its header and its comments; with the two files exchanged it is written
    as one deletion. *)
Theorem compareDocument_surplus (documents1 documents2 : list YAMLDocument) (totalDocs i : nat)
    (doc : YAMLDocument) :
  Data doc ≠ VNil → documents1 !! i = None → documents2 !! i = Some doc →
  compareDocument red green yellow yamlEncode bluePrintln bluePrintf
    disableComments noDocComment documents1 documents2 totalDocs i
  = Some ((if noDocComment then bluePrintln "---"
           else bluePrintf ("--- # YAML Document: " +:+ Itoa (Z.of_nat (i + 1)) +:+ "/"
                            +:+ Itoa (Z.of_nat totalDocs) +:+ nl))
          +:+ (if negb disableComments
               then String.concat "" (bluePrintln <$> Comments doc) else "")
          +:+ renderChange red green yellow yamlEncode (mkChange Addition "" VNil (Data doc))
          +:+ nl)
  ∧ compareDocument red green yellow yamlEncode bluePrintln bluePrintf
      disableComments noDocComment documents2 documents1 totalDocs i
    = Some ((if noDocComment then bluePrintln "---"
             else bluePrintf ("--- # YAML Document: " +:+ Itoa (Z.of_nat (i + 1)) +:+ "/"
                              +:+ Itoa (Z.of_nat totalDocs) +:+ nl))
            +:+ (if negb disableComments
                 then String.concat "" (bluePrintln <$> Comments doc) else "")
            +:+ renderChange red green yellow yamlEncode (mkChange Deletion "" (Data doc) VNil)
            +:+ nl).
Proof.
  intros Hdoc H1 H2. destruct (diffValues_nil_side (Data doc) "" Hdoc) as [Hadd Hdel].
  split; unfold compareDocument; rewrite H1, H2; cbn [from_option].
  - rewrite (bool_decide_eq_false_2 (Data doc = VNil)) by done. rewrite andb_false_r.
    rewrite Hadd. cbn [mbind option_bind length Nat.eqb].
    assert ((if Nat.ltb 0 (length (Comments doc)) then Comments doc else []) = Comments doc)
      as -> by by destruct (Comments doc).
    done.
  - rewrite (bool_decide_eq_false_2 (Data doc = VNil)) by done. rewrite andb_false_l.
    rewrite Hdel. done.
Qed.
End main_facts.

End ymldiff.

(** * The statements at concrete documents

    The program is evaluated with [formatSpecialFloat] for the library's
    float formatting, and, where it renders, without colours and with an
    encoder that reports an error. *)

Lemma diffValues_type_change_witness :
  diffValues formatSpecialFloat (VMap {[ KStr "a" := VInt 1 ]}) (VStr "a") ".key"
  = Some [mkChange Modification ".key" (VMap {[ KStr "a" := VInt 1 ]}) (VStr "a")].
Proof. apply diffValues_type_change; [discriminate | discriminate | simpl; discriminate]. Defined.



Lemma groupByIdentifier_collision_witness :
  groupByIdentifier formatSpecialFloat
    [VMap {[ KStr "name" := VStr "a"; KStr "v" := VInt 1 ]};
     VMap {[ KStr "id" := VStr "a"; KStr "v" := VInt 2 ]};
     VMap {[ KStr "name" := VStr "b" ]}] !! "a"
  = Some (VMap {[ KStr "id" := VStr "a"; KStr "v" := VInt 2 ]}).
Proof.
  apply (groupByIdentifier_collision formatSpecialFloat _ 0 1
           (VMap {[ KStr "name" := VStr "a"; KStr "v" := VInt 1 ]})); try reflexivity.
  - lia.
  - intros [|[|[|k]]] item Hk; try lia; [|done].
    intros [= <-]. vm_compute. discriminate.
Defined.



(** C9 as claimed fails: rendering the two changes of paths [.zebra] and
    [.apple] leaves the caller's collection in the other order. *)
Lemma generateColoredDiff_reorders_caller :
  (generateColoredDiff formatSpecialFloat id id id (λ _, None)
     [mkChange Addition ".zebra" VNil (VStr "animal");
      mkChange Deletion ".apple" (VStr "fruit") VNil]).1
  ≠ [mkChange Addition ".zebra" VNil (VStr "animal");
     mkChange Deletion ".apple" (VStr "fruit") VNil].
Proof. vm_compute. discriminate. Qed.

Lemma isSliceOfDictsWithIds_on_mappings_witness :
  isSliceOfDictsWithIds [VMap {[ KStr "v" := VInt 1 ]}; VMap {[ KStr "id" := VInt 7 ]}]
  = Some true.
Proof.
  etrans; [apply isSliceOfDictsWithIds_on_mappings; reflexivity|].
  vm_compute. reflexivity.
Defined.


Lemma normalizeValue_idempotent_without_nil_witness :
  normalizeValue formatSpecialFloat (VSlice [VInt (-3); VInt 1; VStr "a"])
  = Some (VSlice [VInt (-3); VInt 1; VStr "a"]).
Proof.
  apply (normalizeValue_idempotent_without_nil formatSpecialFloat
           (VSlice [VStr "a"; VInt 1; VInt (-3)]));
    vm_compute; reflexivity.
Defined.

Lemma normalizeValue_second_pass_witness :
  normalizeValue formatSpecialFloat (VSlice [VNil; VStr "zzz"]) = None
  ∨ normalizeValue formatSpecialFloat (VSlice [VNil; VStr "zzz"])
    = Some (VSlice [VNil; VStr "zzz"]).
Proof.
  apply (normalizeValue_second_pass formatSpecialFloat (VSlice [VStr "zzz"; VNil])).
  reflexivity.
Defined.

Lemma normalizeValue_sequence_witness :
  ∃ elements s,
    mapM (normalizeValue formatSpecialFloat) [VStr "zebra"; VStr "apple"] = Some elements
    ∧ VSlice [VStr "apple"; VStr "zebra"] = VSlice s ∧ s ≡ₚ elements
    ∧ ((isSliceOfDictsWithIds elements = Some true ∧ s = elements)
       ∨ (isSliceOfDictsWithIds elements = Some false
          ∧ Sorted (λ a b, (Sprint formatSpecialFloat a ≤ Sprint formatSpecialFloat b)%string) s)).
Proof. apply normalizeValue_sequence. reflexivity. Defined.

Lemma normalizeValue_order_insensitive_witness :
  normalizeValue formatSpecialFloat (VSlice [VStr "b"; VInt 2; VSlice [VStr "y"; VStr "x"]])
  = normalizeValue formatSpecialFloat (VSlice [VSlice [VStr "y"; VStr "x"]; VStr "b"; VInt 2]).
Proof.
  apply (normalizeValue_order_insensitive formatSpecialFloat _ _
           [VStr "b"; VInt 2; VSlice [VStr "x"; VStr "y"]]
           [VSlice [VStr "x"; VStr "y"]; VStr "b"; VInt 2]); try reflexivity.
  - symmetry. apply (Permutation_cons_append [VStr "b"; VInt 2]).
  - apply (bool_decide_unpack _). vm_compute. exact I.
Defined.

Lemma diffValues_absent_witness :
  diffValues formatSpecialFloat VNil (VMap {[ KStr "a" := VInt 1 ]}) ""
  = Some [mkChange Addition "" VNil (VMap {[ KStr "a" := VInt 1 ]})]
  ∧ diffValues formatSpecialFloat (VMap {[ KStr "a" := VInt 1 ]}) VNil ""
    = Some [mkChange Deletion "" (VMap {[ KStr "a" := VInt 1 ]}) VNil].
Proof. apply diffValues_absent. discriminate. Defined.

Lemma diffValues_scalars_witness :
  diffValues formatSpecialFloat (VInt 5432) (VInt 5433) ".port"
  = Some [mkChange Modification ".port" (VInt 5432) (VInt 5433)].
Proof.
  apply (diffValues_scalars formatSpecialFloat (KInt 5432) (KInt 5433)); discriminate.
Defined.

Lemma normalizeValue_equal_texts_witness :
  diffValues formatSpecialFloat (VSlice [VStr "1"; VInt 1]) (VSlice [VInt 1; VStr "1"]) ""
  = Some [mkChange Modification "[0]" (VStr "1") (VInt 1);
          mkChange Modification "[1]" (VInt 1) (VStr "1")].
Proof. apply (normalizeValue_equal_texts formatSpecialFloat (KStr "1") (KInt 1)); done. Defined.

Lemma diffValues_paths_witness :
  Forall (pathUnder ".spec")
    [mkChange Modification ".spec.users[Bob].age" (VInt 25) (VInt 26)].
Proof.
  apply (diffValues_paths formatSpecialFloat
           (VMap {[ KStr "users" := VSlice [user "Alice" 30; user "Bob" 25] ]})
           (VMap {[ KStr "users" := VSlice [user "Bob" 26; user "Alice" 30] ]})).
  vm_compute. reflexivity.
Defined.

Lemma diffValues_shapes_witness :
  Forall changeShape
    [mkChange Modification ".a[1]" (VInt 2) (VStr "x");
     mkChange Deletion ".a[2]" (VInt 3) VNil].
Proof.
  apply (diffValues_shapes formatSpecialFloat
           (VSlice [VInt 1; VInt 2; VInt 3]) (VSlice [VInt 1; VStr "x"]) ".a").
  vm_compute. reflexivity.
Defined.

Lemma diffValues_returns_without_nil_witness :
  is_Some (diffValues formatSpecialFloat
             (VMap {[ KStr "users" := VSlice [user "Alice" 30; user "Bob" 25];
                      KStr "ports" := VSlice [VInt 80; VInt 443] ]})
             (VMap {[ KStr "users" := VSlice [user "Bob" 26; user "Alice" 30];
                      KStr "ports" := VSlice [VInt 80] ]}) "").
Proof. apply diffValues_returns_without_nil; vm_compute; reflexivity. Defined.

Lemma diffValues_no_change_plain_witness :
  DeepEqual (VMap {[ KStr "weights" := VSlice [VInt 1; VFloat (S754_zero false)] ]})
            (VMap {[ KStr "weights" := VSlice [VInt 1; VFloat (S754_zero true)] ]})
  = true.
Proof.
  apply (diffValues_no_change_plain formatSpecialFloat _ _ ""); vm_compute; reflexivity.
Defined.

Lemma diffSliceOfDicts_order_insensitive_witness :
  diffSliceOfDicts formatSpecialFloat
    [user "Alice" 30; user "Bob" 25] [user "Bob" 26; user "Alice" 30] ".users"
  = diffSliceOfDicts formatSpecialFloat
      [user "Bob" 25; user "Alice" 30] [user "Alice" 30; user "Bob" 26] ".users".
Proof.
  apply diffSliceOfDicts_order_insensitive.
  - apply perm_swap.
  - apply perm_swap.
  - apply (bool_decide_unpack _). vm_compute. exact I.
  - apply (bool_decide_unpack _). vm_compute. exact I.
Defined.

Lemma generateColoredDiff_order_independent_witness :
  generateColoredDiff formatSpecialFloat id id id (λ _, None)
    [mkChange Addition ".zebra" VNil (VStr "animal"); mkChange Deletion ".apple" (VStr "fruit") VNil]
  = generateColoredDiff formatSpecialFloat id id id (λ _, None)
      [mkChange Deletion ".apple" (VStr "fruit") VNil; mkChange Addition ".zebra" VNil (VStr "animal")].
Proof.
  apply generateColoredDiff_order_independent.
  - apply perm_swap.
  - apply (bool_decide_unpack _). vm_compute. exact I.
Defined.

Lemma compareDocuments_same_data_witness :
  compareDocuments formatSpecialFloat id id id (λ _, None) id id false false
    [mkYAMLDocument (user "Alice" 30) ["# first"]; mkYAMLDocument (VFloat (S754_zero false)) []]
    [mkYAMLDocument (user "Alice" 30) []; mkYAMLDocument (VFloat (S754_zero true)) ["# second"]]
  = Some "".
Proof. apply compareDocuments_same_data. repeat constructor. Defined.

Lemma compareDocument_surplus_witness :
  compareDocument formatSpecialFloat id id id (λ _, None) (λ s, s +:+ nl) id false false
    [mkYAMLDocument (VStr "a") []]
    [mkYAMLDocument (VStr "a") []; mkYAMLDocument (VStr "b") ["# second"]] 2 1
  = Some ("--- # YAML Document: 2/2" +:+ nl +:+ "# second" +:+ nl +:+ "+ : b" +:+ nl +:+ nl).
Proof.
  etrans.
  - refine (proj1 (compareDocument_surplus formatSpecialFloat id id id (λ _, None)
      (λ s, s +:+ nl) id false false
      _ _ 2 1 (mkYAMLDocument (VStr "b") ["# second"]) _ _ _)); [discriminate|reflexivity..].
  - vm_compute. reflexivity.
Defined.
